(** * ai_quiz: the extraction gateway and the quiz session of [app.py]

    A shallow embedding of [parse_quiz_file_with_ai] and of the session
    logic of [main] (Streamlit application), with the properties of the
    repository's specification stated and proved over it.

    Conventions.
    - A Python [str] is the list of its code points ([list N]).
    - A Python [int] is a [Z].
    - The records of the question store are the JSON objects the prompt of
      [parse_quiz_file_with_ai] asks for: keys [question], [options],
      [answer].
    - [st.session_state] is a record passed explicitly; one run of [main]
      caused by one user action is one transition.
    - What the application calls and does not define is modelled beside
      it: the string methods and [int], [json.loads] (without the
      interpreter's limits on nesting and on the length of numbers), the
      outcome of the calls to the model, the values the widgets return.
    - [main] is the session on a store of question records, whose
      fields are strings.  The gateway validates nothing, and [py_main]
      is the session on the store as the gateway returns it, with
      Python's [==] on its values; on stores of question records the two
      agree ([py_main_records]). *)

From Stdlib Require Import ZArith NArith List Bool Lia String Ascii Decimal.
From Stdlib Require Import DecimalPos DecimalN.
From stdpp Require Import base option list gmap.

Import ListNotations.
Set Warnings "-register-all".
Local Open Scope N_scope.
Local Open Scope list_scope.

(* ===================================================================== *)
(** * Python strings                                                      *)
(* ===================================================================== *)

(** A Python string: the sequence of its Unicode code points. *)
Abbreviation str := (list N).

(** Literals are written as Rocq strings (8-bit characters). *)
Definition str_of (s : string) : str :=
  List.map N_of_ascii (list_ascii_of_string s).

(** JSON samples are written with ['] where the text has a double quote. *)
Definition dquote : N := 34.
Definition json_of (s : string) : str :=
  List.map (fun c => if c =? 39 then dquote else c) (str_of s).

Definition str_eqb (a b : str) : bool := bool_decide (a = b).

(** [str.isspace] for one code point: the characters [str.strip()] removes
    (Unicode White_Space plus the information separators 0x1c-0x1f). *)
Definition py_whitespace : list N :=
  [ 9; 10; 11; 12; 13; 28; 29; 30; 31; 32; 133; 160; 5760;
    8192; 8193; 8194; 8195; 8196; 8197; 8198; 8199; 8200; 8201; 8202;
    8232; 8233; 8239; 8287; 12288 ].

Definition isspace (c : N) : bool := existsb (N.eqb c) py_whitespace.

(** [s.lstrip()], [s.rstrip()], [s.strip()] *)
Fixpoint lstrip (s : str) : str :=
  match s with
  | [] => []
  | c :: s' => if isspace c then lstrip s' else s
  end.

Definition rstrip (s : str) : str := rev (lstrip (rev s)).

Definition strip (s : str) : str := rstrip (lstrip s).

(** [s.startswith(p)] *)
Fixpoint startswith (p s : str) : bool :=
  match p, s with
  | [], _ => true
  | _ :: _, [] => false
  | a :: p', b :: s' => (a =? b) && startswith p' s'
  end.

(** [sub in s] *)
Fixpoint contains (sub s : str) : bool :=
  startswith sub s ||
  match s with
  | [] => false
  | _ :: s' => contains sub s'
  end.

(** The number of backticks the text begins with. *)
Fixpoint backticks (s : str) : nat :=
  match s with
  | c :: s' => if c =? 96 then S (backticks s') else O
  | [] => O
  end.

(** [s.replace(old, new)] for a non-empty [old]: the occurrences of [old]
    are found scanning from the left, and the scan resumes after each
    occurrence.  [skip] counts the characters of the occurrence being
    replaced that are still to be passed over. *)
Fixpoint replace_from (old new : str) (skip : nat) (s : str) : str :=
  match s with
  | [] => []
  | c :: s' =>
      match skip with
      | S k => replace_from old new k s'
      | O =>
          if startswith old s
          then new ++ replace_from old new (Nat.pred (length old)) s'
          else c :: replace_from old new 0 s'
      end
  end.

Definition replace (old new s : str) : str := replace_from old new 0 s.

(** [s.split(sep)] for a one-character separator. *)
Fixpoint split (sep : N) (s : str) : list str :=
  match s with
  | [] => [[]]
  | c :: s' =>
      if c =? sep then [] :: split sep s'
      else match split sep s' with
           | [] => [[c]]
           | w :: ws => (c :: w) :: ws
           end
  end.

(** [str(n)] for a non-negative integer: its decimal digits. *)
Fixpoint digits_of_uint (d : Decimal.uint) : str :=
  match d with
  | Nil => []
  | D0 d => 48 :: digits_of_uint d
  | D1 d => 49 :: digits_of_uint d
  | D2 d => 50 :: digits_of_uint d
  | D3 d => 51 :: digits_of_uint d
  | D4 d => 52 :: digits_of_uint d
  | D5 d => 53 :: digits_of_uint d
  | D6 d => 54 :: digits_of_uint d
  | D7 d => 55 :: digits_of_uint d
  | D8 d => 56 :: digits_of_uint d
  | D9 d => 57 :: digits_of_uint d
  end.

Definition digit_cons (c : N) (d : Decimal.uint) : option Decimal.uint :=
  if c =? 48 then Some (D0 d) else if c =? 49 then Some (D1 d)
  else if c =? 50 then Some (D2 d) else if c =? 51 then Some (D3 d)
  else if c =? 52 then Some (D4 d) else if c =? 53 then Some (D5 d)
  else if c =? 54 then Some (D6 d) else if c =? 55 then Some (D7 d)
  else if c =? 56 then Some (D8 d) else if c =? 57 then Some (D9 d)
  else None.

Fixpoint uint_of_digits (s : str) : option Decimal.uint :=
  match s with
  | [] => Some Nil
  | c :: s' =>
      match uint_of_digits s' with
      | Some d => digit_cons c d
      | None => None
      end
  end.

Definition py_str (n : N) : str := digits_of_uint (N.to_uint n).

Definition is_digit (c : N) : bool := (48 <=? c) && (c <=? 57).

(** The digits of an integer literal, where single underscores may
    separate digits. *)
Fixpoint drop_underscores (after_digit : bool) (s : str) : option str :=
  match s with
  | [] => if after_digit then Some [] else None
  | c :: s' =>
      if c =? 95 then
        if after_digit then drop_underscores false s' else None
      else if is_digit c then
        match drop_underscores true s' with
        | Some ds => Some (c :: ds)
        | None => None
        end
      else None
  end.

(** [int(s)]: surrounding whitespace, an optional sign, decimal digits.
    [None] stands for [ValueError].  Digits outside ASCII, which [int]
    accepts as well, are not covered, and the whitespace removed is that
    of [strip], of which [int] refuses the separators 0x1c-0x1f in an
    ASCII text; the labels of the selectbox hold neither. *)
Definition py_int (s : str) : option Z :=
  let t := strip s in
  let '(neg, body) := match t with
                      | 43 :: b => (false, b)
                      | 45 :: b => (true, b)
                      | _ => (false, t)
                      end in
  match drop_underscores false body with
  | None => None
  | Some ds =>
      match uint_of_digits ds with
      | Some d =>
          let n := Z.of_N (N.of_uint d) in
          Some (if neg then (- n)%Z else n)
      | None => None
      end
  end.

(* ===================================================================== *)
(** * Python values and [json.loads]                                      *)
(* ===================================================================== *)

(** The values [json.loads] builds.  A float keeps its lexeme (its
    numeric value is never inspected by the application); a [dict] is the
    list of its items in insertion order. *)
Inductive pyval :=
| PNone
| PBool (b : bool)
| PInt (z : Z)
| PFloat (lexeme : str)
| PStr (s : str)
| PList (l : list pyval)
| PDict (items : list (str * pyval)).

(** [d[k] = v] *)
Fixpoint dict_set (items : list (str * pyval)) (k : str) (v : pyval)
  : list (str * pyval) :=
  match items with
  | [] => [(k, v)]
  | (k', v') :: items' =>
      if str_eqb k' k then (k', v) :: items'
      else (k', v') :: dict_set items' k v
  end.

(** [d[k]] on a [dict]; [None] stands for [KeyError]/[TypeError]. *)
Fixpoint dict_get (items : list (str * pyval)) (k : str) : option pyval :=
  match items with
  | [] => None
  | (k', v) :: items' => if str_eqb k' k then Some v else dict_get items' k
  end.

Definition py_getitem (v : pyval) (k : str) : option pyval :=
  match v with
  | PDict items => dict_get items k
  | _ => None
  end.

(** [len(v)]; [None] stands for [TypeError]. *)
Definition py_len (v : pyval) : option nat :=
  match v with
  | PStr s => Some (length s)
  | PList l => Some (length l)
  | PDict items => Some (length items)
  | _ => None
  end.

(** ** The lexical level of the JSON decoder

    A model of the standard library's decoder (default, strict mode),
    which is not part of the repository: whitespace is space, tab, line
    feed and carriage return; strings reject raw control characters and
    decode the escapes, joining surrogate pairs; the constants are
    [true], [false], [null], [NaN], [Infinity] and [-Infinity]. *)

Inductive token :=
| TLBracket | TRBracket | TLBrace | TRBrace | TComma | TColon
| TString (s : str)
| TAtom (v : pyval).

Definition is_json_ws (c : N) : bool :=
  (c =? 32) || (c =? 9) || (c =? 10) || (c =? 13).

Definition is_letter (c : N) : bool :=
  ((65 <=? c) && (c <=? 90)) || ((97 <=? c) && (c <=? 122)).

(** characters of numbers and constants *)
Definition is_atom_char (c : N) : bool :=
  is_digit c || is_letter c || (c =? 43) || (c =? 45) || (c =? 46).

Definition hex_value (c : N) : option N :=
  if is_digit c then Some (c - 48)
  else if (97 <=? c) && (c <=? 102) then Some (c - 87)
  else if (65 <=? c) && (c <=? 70) then Some (c - 55)
  else None.

Fixpoint span_digits (s : str) : str * str :=
  match s with
  | c :: s' =>
      if is_digit c then let '(ds, r) := span_digits s' in (c :: ds, r)
      else ([], s)
  | [] => ([], [])
  end.

(** integer part: [0|[1-9][0-9]*] *)
Definition scan_int (s : str) : option (str * str) :=
  match s with
  | c :: s' =>
      if c =? 48 then Some ([c], s')
      else if is_digit c then let '(ds, r) := span_digits s' in Some (c :: ds, r)
      else None
  | [] => None
  end.

(** fraction: [(\.[0-9]+)?]; the flag tells whether it is present *)
Definition scan_frac (s : str) : bool * str :=
  match s with
  | 46 :: s' =>
      match span_digits s' with
      | ([], _) => (false, s)
      | (_, r) => (true, r)
      end
  | _ => (false, s)
  end.

(** exponent: [([eE][-+]?[0-9]+)?] *)
Definition scan_exp (s : str) : bool * str :=
  match s with
  | c :: s' =>
      if (c =? 101) || (c =? 69) then
        let s'' := match s' with
                   | d :: t => if (d =? 43) || (d =? 45) then t else s'
                   | [] => s'
                   end in
        match span_digits s'' with
        | ([], _) => (false, s)
        | (_, r) => (true, r)
        end
      else (false, s)
  | [] => (false, s)
  end.

(** The value of a number lexeme: an [int] without fraction and exponent,
    a [float] otherwise. *)
Definition number_value (a : str) : option pyval :=
  let '(neg, body) := match a with
                      | 45 :: b => (true, b)
                      | _ => (false, a)
                      end in
  match scan_int body with
  | None => None
  | Some (ds, r1) =>
      let '(has_frac, r2) := scan_frac r1 in
      let '(has_exp, r3) := scan_exp r2 in
      match r3 with
      | _ :: _ => None
      | [] =>
          if has_frac || has_exp then Some (PFloat a)
          else match uint_of_digits ds with
               | Some d =>
                   let n := Z.of_N (N.of_uint d) in
                   Some (PInt (if neg then (- n)%Z else n))
               | None => None
               end
      end
  end.

Definition atom_value (a : str) : option pyval :=
  if str_eqb a (str_of "true") then Some (PBool true)
  else if str_eqb a (str_of "false") then Some (PBool false)
  else if str_eqb a (str_of "null") then Some PNone
  else if str_eqb a (str_of "NaN") then Some (PFloat a)
  else if str_eqb a (str_of "Infinity") then Some (PFloat a)
  else if str_eqb a (str_of "-Infinity") then Some (PFloat a)
  else number_value a.

(** States of the scanner.  String contents are accumulated in reverse;
    [hi] records that the character just decoded is a high surrogate
    written as a [\u] escape, which a following [\u] low surrogate
    completes. *)
Inductive lstate :=
| LTop
| LStr (acc : str) (hi : bool)
| LEsc (acc : str) (hi : bool)
| LHex (acc : str) (hi : bool) (todo : nat) (v : N)
| LAtom (acc : str).

Definition is_high_surrogate (v : N) : bool := (55296 <=? v) && (v <=? 56319).
Definition is_low_surrogate (v : N) : bool := (56320 <=? v) && (v <=? 57343).

Definition join_surrogates (h l : N) : N :=
  65536 + N.lor (N.shiftl (h - 55296) 10) (l - 56320).

Definition lstep_top (c : N) : option (list token * lstate) :=
  if is_json_ws c then Some ([], LTop)
  else if c =? 91 then Some ([TLBracket], LTop)
  else if c =? 93 then Some ([TRBracket], LTop)
  else if c =? 123 then Some ([TLBrace], LTop)
  else if c =? 125 then Some ([TRBrace], LTop)
  else if c =? 44 then Some ([TComma], LTop)
  else if c =? 58 then Some ([TColon], LTop)
  else if c =? dquote then Some ([], LStr [] false)
  else if is_atom_char c then Some ([], LAtom [c])
  else None.

Definition simple_escape (c : N) : option N :=
  if c =? dquote then Some dquote
  else if c =? 92 then Some 92
  else if c =? 47 then Some 47
  else if c =? 98 then Some 8
  else if c =? 102 then Some 12
  else if c =? 110 then Some 10
  else if c =? 114 then Some 13
  else if c =? 116 then Some 9
  else None.

Definition lstep (st : lstate) (c : N) : option (list token * lstate) :=
  match st with
  | LTop => lstep_top c
  | LStr acc hi =>
      if c =? dquote then Some ([TString (rev acc)], LTop)
      else if c =? 92 then Some ([], LEsc acc hi)
      else if c <? 32 then None
      else Some ([], LStr (c :: acc) false)
  | LEsc acc hi =>
      if c =? 117 then Some ([], LHex acc hi 3 0)
      else match simple_escape c with
           | Some e => Some ([], LStr (e :: acc) false)
           | None => None
           end
  | LHex acc hi todo v =>
      match hex_value c with
      | None => None
      | Some d =>
          let v' := 16 * v + d in
          match todo with
          | S k => Some ([], LHex acc hi k v')
          | O =>
              match acc with
              | h :: acc' =>
                  if hi && is_low_surrogate v'
                  then Some ([], LStr (join_surrogates h v' :: acc') false)
                  else Some ([], LStr (v' :: acc) (is_high_surrogate v'))
              | [] => Some ([], LStr [v'] (is_high_surrogate v'))
              end
          end
      end
  | LAtom acc =>
      if is_atom_char c then Some ([], LAtom (c :: acc))
      else match atom_value (rev acc), lstep_top c with
           | Some v, Some (toks, st') => Some (TAtom v :: toks, st')
           | _, _ => None
           end
  end.

(** end of the text *)
Definition lend (st : lstate) : option (list token) :=
  match st with
  | LTop => Some []
  | LAtom acc =>
      match atom_value (rev acc) with
      | Some v => Some [TAtom v]
      | None => None
      end
  | _ => None
  end.

Fixpoint lex (st : lstate) (s : str) : option (list token) :=
  match s with
  | [] => lend st
  | c :: s' =>
      match lstep st c with
      | None => None
      | Some (toks, st') =>
          match lex st' s' with
          | None => None
          | Some rest => Some (toks ++ rest)
          end
      end
  end.

(** ** The structural level of the JSON decoder *)

(** The containers being filled: a list with its items so far (reversed),
    or a dict with its items so far and the key whose value is awaited. *)
Inductive frame :=
| FList (items : list pyval)
| FDict (items : list (str * pyval)) (key : str).

Inductive pstate :=
| PValue (stk : list frame)
| PFirst (stk : list frame)
| PDone (v : pyval) (stk : list frame)
| PKeyOrClose (stk : list frame)
| PKey (items : list (str * pyval)) (stk : list frame)
| PColon (items : list (str * pyval)) (key : str) (stk : list frame).

Definition pstep_value (stk : list frame) (t : token) : option pstate :=
  match t with
  | TLBracket => Some (PFirst stk)
  | TLBrace => Some (PKeyOrClose stk)
  | TString s => Some (PDone (PStr s) stk)
  | TAtom v => Some (PDone v stk)
  | _ => None
  end.

Definition pstep (st : pstate) (t : token) : option pstate :=
  match st with
  | PValue stk => pstep_value stk t
  | PFirst stk =>
      match t with
      | TRBracket => Some (PDone (PList []) stk)
      | _ => pstep_value (FList [] :: stk) t
      end
  | PDone v (FList items :: stk) =>
      match t with
      | TComma => Some (PValue (FList (v :: items) :: stk))
      | TRBracket => Some (PDone (PList (rev (v :: items))) stk)
      | _ => None
      end
  | PDone v (FDict items key :: stk) =>
      match t with
      | TComma => Some (PKey (dict_set items key v) stk)
      | TRBrace => Some (PDone (PDict (dict_set items key v)) stk)
      | _ => None
      end
  | PDone _ [] => None
  | PKeyOrClose stk =>
      match t with
      | TRBrace => Some (PDone (PDict []) stk)
      | TString k => Some (PColon [] k stk)
      | _ => None
      end
  | PKey items stk =>
      match t with
      | TString k => Some (PColon items k stk)
      | _ => None
      end
  | PColon items key stk =>
      match t with
      | TColon => Some (PValue (FDict items key :: stk))
      | _ => None
      end
  end.

Fixpoint parse_tokens (st : pstate) (ts : list token) : option pyval :=
  match ts with
  | [] => match st with
          | PDone v [] => Some v
          | _ => None
          end
  | t :: ts' =>
      match pstep st t with
      | Some st' => parse_tokens st' ts'
      | None => None
      end
  end.

(** Exceptions the gateway can catch. *)
Inductive exn :=
| ServiceError (cause : str)
| JSONDecodeError
| TypeError.

(** [json.loads(text)] *)
Definition json_loads (text : str) : exn + pyval :=
  match lex LTop text with
  | None => inl JSONDecodeError
  | Some ts =>
      match parse_tokens (PValue []) ts with
      | None => inl JSONDecodeError
      | Some v => inr v
      end
  end.

(* ===================================================================== *)
(** * The extraction gateway: [parse_quiz_file_with_ai]                   *)
(* ===================================================================== *)

(** The outcome of the calls to the external model ([genai.upload_file],
    [model.generate_content]): an exception, or a response whose [text]
    is given.  (A response may have no text; [response], further down,
    has this outcome as well.) *)
Inductive service :=
| Unreachable (cause : str)
| Reply (text : str).

(** What the gateway displays. *)
Inductive message :=
| error_configuration (cause : str)   (* st.error(f"AI Configuration Error: {e}") *)
| error_no_api_key            (* st.error("Error: GOOGLE_API_KEY not found ...") *)
| info_create_secrets         (* st.info("Please create a file named ...") *)
| info_analyzing              (* st.info("Keedam AI is analyzing your document ...") *)
| success_found (n : nat)     (* st.success(f"AI analysis complete! Found {n} questions.") *)
| error_analyzing             (* st.error("An error occurred while the AI was analyzing the file.") *)
| error_details (e : exn)     (* st.error(f"Details: {e}") *)
| code_raw (text : str).      (* st.code(response.text, language="text") *)

(** [st.secrets]: reading it raises (no secrets file), or it holds the
    entry [GOOGLE_API_KEY] or not. *)
Inductive secrets :=
| SecretsUnreadable (cause : str)
| Secrets (api_key : option str).

(** [configure_ai()]: the key must be present in the secrets and truthy. *)
Definition configure_ai (sec : secrets) : bool * list message :=
  match sec with
  | SecretsUnreadable cause => (false, [error_configuration cause])
  | Secrets (Some (_ :: _)) => (true, [])
  | Secrets _ => (false, [error_no_api_key; info_create_secrets])
  end.

Definition fence_json : str := Eval cbv in str_of "```json".
Definition fence : str := Eval cbv in str_of "```".

(** [json_text]: the reply's text stripped, then every [```json] replaced
    by the empty string, then every [```] replaced by the empty string. *)
Definition clean_reply (text : str) : str :=
  replace fence [] (replace fence_json [] (strip text)).

(** The two replacements of [clean_reply]. *)
Definition unfence (s : str) : str :=
  replace fence [] (replace fence_json [] s).

(** A text of JSON whitespace only. *)
Definition json_blank (w : str) : Prop :=
  Forall (fun c => is_json_ws c = true) w.

(** A reply wrapped in a fenced code block: the opening fence, with the
    [json] tag or without, whitespace [w1] (a line feed, as a rule), the
    text, whitespace [w2], the closing fence. *)
Definition fenced (lang : bool) (w1 w2 t : str) : str :=
  (if lang then fence_json else fence) ++ w1 ++ t ++ w2 ++ fence.

(** [parse_quiz_file_with_ai(file_path)]: the returned value and the
    messages displayed.  [len(questions)] is evaluated for the success
    message, inside the [try]. *)
Definition parse_quiz_file_with_ai (sec : secrets) (svc : service)
  : pyval * list message :=
  let '(ok, msgs) := configure_ai sec in
  if negb ok then (PList [], msgs)
  else
    match svc with
    | Unreachable cause =>
        (PList [], [info_analyzing; error_analyzing;
                    error_details (ServiceError cause)])
    | Reply text =>
        let json_text := clean_reply text in
        match json_loads json_text with
        | inl e =>
            (PList [], [info_analyzing; error_analyzing; error_details e;
                        code_raw text])
        | inr questions =>
            match py_len questions with
            | None =>
                (PList [], [info_analyzing; error_analyzing;
                            error_details TypeError; code_raw text])
            | Some n => (questions, [info_analyzing; success_found n])
            end
        end
    end.

(** The QuestionRecord invariant of the specification, on a decoded JSON
    object: [q["answer"] in q["options"]]. *)
Definition pyval_is_str (a : str) (v : pyval) : bool :=
  match v with
  | PStr s => str_eqb s a
  | _ => false
  end.

Definition answer_in_options (q : pyval) : bool :=
  match py_getitem q (str_of "answer"), py_getitem q (str_of "options") with
  | Some (PStr a), Some (PList os) => existsb (pyval_is_str a) os
  | _, _ => false
  end.

(* ===================================================================== *)
(** * The quiz session: [main]                                            *)
(* ===================================================================== *)

(** A question of the store: the object with the keys [question],
    [options] and [answer] that the prompt demands. *)
Record question := {
  q_question : str;
  q_options : list str;
  q_answer : str
}.

Definition as_str (v : pyval) : option str :=
  match v with
  | PStr s => Some s
  | _ => None
  end.

(** The store the session reads, when the gateway's value has that shape. *)
Definition as_question (v : pyval) : option question :=
  match py_getitem v (str_of "question"),
        py_getitem v (str_of "options"),
        py_getitem v (str_of "answer") with
  | Some (PStr q), Some (PList os), Some (PStr a) =>
      match mapM as_str os with
      | Some os' => Some {| q_question := q; q_options := os'; q_answer := a |}
      | None => None
      end
  | _, _, _ => None
  end.

Definition as_store (v : pyval) : option (list question) :=
  match v with
  | PList l => mapM as_question l
  | _ => None
  end.

(** [st.session_state.state] *)
Inductive phase := initial | quiz_started | show_feedback | finished.

(** [st.session_state] *)
Record session := {
  state : phase;
  questions : list question;
  current_question : Z;
  user_answers : gmap Z str
}.

Definition new_session : session :=
  {| state := initial; questions := []; current_question := 0%Z;
     user_answers := ∅ |}.

(** [l[i]] with Python's negative indices; [None] stands for [IndexError]. *)
Definition py_index {A} (l : list A) (i : Z) : option A :=
  let n := Z.of_nat (length l) in
  if (0 <=? i)%Z then l !! Z.to_nat i
  else if (- n <=? i)%Z then l !! Z.to_nat (n + i)
  else None.

(** [enumerate(l)] *)
Fixpoint enumerate_from {A} (i : Z) (l : list A) : list (Z * A) :=
  match l with
  | [] => []
  | x :: l' => (i, x) :: enumerate_from (i + 1) l'
  end.

Definition enumerate {A} (l : list A) : list (Z * A) := enumerate_from 0 l.

(** [l.index(x)]; [None] stands for [ValueError]. *)
Fixpoint list_index (x : str) (l : list str) : option nat :=
  match l with
  | [] => None
  | y :: l' => if str_eqb y x then Some O else S <$> list_index x l'
  end.

(** [user_answers.get(i) == a]: an absent entry is [None], equal to no
    string. *)
Definition get_equals (o : option str) (a : str) : bool :=
  match o with
  | Some x => str_eqb x a
  | None => false
  end.

(** [sum(1 for i, q in enumerate(questions)
         if user_answers.get(i) == q['answer'])] *)
Definition score (s : session) : nat :=
  list_sum
    (List.map (fun _ => 1%nat)
       (List.filter
          (fun iq => get_equals (user_answers s !! fst iq) (q_answer (snd iq)))
          (enumerate (questions s)))).

(** The score is computed in the [finished] branch only. *)
Definition final_score (s : session) : option nat :=
  match state s with
  | finished => Some (score s)
  | _ => None
  end.

(** [[f"Question {i+1}" for i in range(len(questions))]] *)
Definition question_label (i : nat) : str :=
  str_of "Question " ++ py_str (N.of_nat (i + 1)).

Definition jumper_options (qs : list question) : list str :=
  List.map question_label (seq 0 (length qs)).

(** The callback [jump_to_question], reading the selectbox's value. *)
Definition jump_to_question (question_jumper : str) (s : session)
  : option session :=
  match split 32 question_jumper !! 1%nat with
  | None => None
  | Some w =>
      match py_int w with
      | None => None
      | Some n =>
          Some {| state := quiz_started;
                  questions := questions s;
                  current_question := (n - 1)%Z;
                  user_answers := user_answers s |}
      end
  end.

(** [[opt for opt in q_data["options"] if opt]] *)
Definition valid_options (q : question) : list str :=
  List.filter (fun opt => negb (str_eqb opt [])) (q_options q).

(** [valid_options.index(previous_answer)
     if previous_answer in valid_options else 0] *)
Definition previous_answer_index (opts : list str) (previous_answer : option str)
  : nat :=
  match previous_answer with
  | Some a => if existsb (str_eqb a) opts then default 0%nat (list_index a opts)
              else 0%nat
  | None => 0%nat
  end.

(** The option the radio of the form shows selected. *)
Definition preselected (s : session) : option str :=
  match py_index (questions s) (current_question s) with
  | None => None
  | Some q_data =>
      valid_options q_data
        !! previous_answer_index (valid_options q_data)
             (user_answers s !! current_question s)
  end.

(** The verdict displayed in [show_feedback]:
    [last_answer == correct_answer],
    where [last_answer] is the ledger's entry for [q_index], the empty
    string when there is none. *)
Definition is_correct (last_answer : str) (q_data : question) : bool :=
  str_eqb last_answer (q_answer q_data).

Definition feedback (s : session) : option bool :=
  match py_index (questions s) (current_question s) with
  | None => None
  | Some q_data =>
      Some (is_correct (default [] (user_answers s !! current_question s)) q_data)
  end.

(** What the user did before a run of [main]. *)
Inductive action :=
| Rerun
| Upload (sec : secrets) (svc : service)
| Jump (question_jumper : str)
| CheckAnswer (user_choice : str)
| NextButton
| NewQuiz.

(** The form's submit: [user_answers[q_index] = user_choice]. *)
Definition submit_answer (user_choice : str) (s : session) : session :=
  {| state := show_feedback;
     questions := questions s;
     current_question := current_question s;
     user_answers := <[current_question s := user_choice]> (user_answers s) |}.

(** The button of [show_feedback]. *)
Definition next_question (s : session) : session :=
  let is_last_question :=
    (current_question s + 1 =? Z.of_nat (length (questions s)))%Z in
  if negb is_last_question then
    {| state := quiz_started;
       questions := questions s;
       current_question := (current_question s + 1)%Z;
       user_answers := user_answers s |}
  else
    {| state := finished;
       questions := questions s;
       current_question := current_question s;
       user_answers := user_answers s |}.

(** One run of [main] after the action [a].  [None] is an uncaught
    exception ([IndexError] at [questions[q_index]], an error in the
    callback), or an upload whose value is not a list of question
    objects, which the record [question] cannot hold ([py_main], further
    down, has these sessions).  An action whose widget the current
    branch does not render cannot be taken: the run leaves the session
    as it is.  The check of [st.selectbox] on its [index], which refuses
    a [current_question] outside the labels, is not modelled: no label
    the selectbox offers leads there. *)
Definition main (a : action) (s : session) : option session :=
  match state s with
  | initial =>
      match a with
      | Upload sec svc =>
          match as_store (fst (parse_quiz_file_with_ai sec svc)) with
          | None => None
          | Some qs =>
              Some {| state := match qs with
                               | [] => initial
                               | _ :: _ => quiz_started
                               end;
                      questions := qs;
                      current_question := current_question s;
                      user_answers := user_answers s |}
          end
      | _ => Some s
      end
  | finished =>
      match a with
      | NewQuiz => Some new_session
      | _ => Some s
      end
  | quiz_started | show_feedback =>
      match (match a with
             | Jump question_jumper => jump_to_question question_jumper s
             | _ => Some s
             end) with
      | None => None
      | Some s1 =>
          match py_index (questions s1) (current_question s1) with
          | None => None
          | Some q_data =>
              match state s1, a with
              | quiz_started, CheckAnswer user_choice =>
                  Some (submit_answer user_choice s1)
              | show_feedback, NextButton => Some (next_question s1)
              | _, _ => Some s1
              end
          end
      end
  end.

(** Successive runs. *)
Fixpoint run (acts : list action) (s : session) : option session :=
  match acts with
  | [] => Some s
  | a :: acts' =>
      match main a s with
      | None => None
      | Some s' => run acts' s'
      end
  end.


(** The store with every record's options replaced by its choice list *)
Definition with_valid_options (q : question) : question :=
  {| q_question := q_question q;
     q_options := valid_options q;
     q_answer := q_answer q |}.

Definition offer_valid_options (s : session) : session :=
  {| state := state s;
     questions := List.map with_valid_options (questions s);
     current_question := current_question s;
     user_answers := user_answers s |}.

(** The invariant on the index of the current question. *)
Definition index_ok (s : session) : Prop :=
  (0 ≤ current_question s < Z.of_nat (length (questions s)))%Z.

(** The specification's reading of the score: the indices of the store
    whose ledger entry is the record's answer. *)
Definition answered_correctly (s : session) (i : nat) : bool :=
  match questions s !! i, user_answers s !! Z.of_nat i with
  | Some q, Some a => bool_decide (a = q_answer q)
  | _, _ => false
  end.

Definition count_correct (s : session) : nat :=
  length (List.filter (answered_correctly s) (seq 0 (length (questions s)))).

(** The operations the user has in a quiz: the form, the button, and the
    selectbox with one of the labels it offers. *)
Definition quiz_operation (a : action) (s : session) : Prop :=
  match a with
  | CheckAnswer _ | NextButton => True
  | Jump question_jumper => question_jumper ∈ jumper_options (questions s)
  | _ => False
  end.

(** In [show_feedback] the current question has an entry in the ledger. *)
Definition feedback_has_answer (s : session) : Prop :=
  state s = show_feedback → is_Some (user_answers s !! current_question s).

(** Every entry of the ledger is a choice its question offers. *)
Definition ledger_offered (s : session) : Prop :=
  ∀ (i : Z) (x : str),
    user_answers s !! i = Some x →
    ∃ q, py_index (questions s) i = Some q ∧ x ∈ valid_options q.

(** The radio returns one of the options it shows. *)
Definition radio_choice (a : action) (s : session) : Prop :=
  match a with
  | CheckAnswer user_choice =>
      ∃ q, py_index (questions s) (current_question s) = Some q
           ∧ user_choice ∈ valid_options q
  | _ => True
  end.

(** The sessions of a quiz: from the upload that finds questions, by the
    operations of a quiz, the radio returning one of its options. *)
Inductive reachable : session → Prop :=
| reachable_upload sec svc s :
    main (Upload sec svc) new_session = Some s →
    questions s ≠ [] →
    reachable s
| reachable_step s a s' :
    reachable s →
    quiz_operation a s → radio_choice a s →
    main a s = Some s' →
    reachable s'.

(* ===================================================================== *)
(** * The rest of [main]                                                  *)
(* ===================================================================== *)

(** A text of whitespace only, in the sense of [str.isspace]. *)
Definition blank (w : str) : Prop := Forall (fun c => isspace c = true) w.

(** Whether a value the gateway returned is truthy: for the values with a
    length (list, dict, str), whether the length is not zero. *)
Definition has_items (v : pyval) : bool :=
  match py_len v with
  | Some (S _) => true
  | _ => false
  end.

(** What the [initial] branch displays after an upload: the messages of
    the gateway, then [st.error("The AI could not find any valid
    questions in this file. ...")] when the value returned is falsy. *)
Inductive display :=
| gateway_says (m : message)
| error_no_valid_questions.

Definition upload_display (sec : secrets) (svc : service) : list display :=
  let '(result, msgs) := parse_quiz_file_with_ai sec svc in
  List.map gateway_says msgs
  ++ (if has_items result then [] else [error_no_valid_questions]).

(** The radio of [show_feedback], frozen on
    [valid_options.index(last_answer)], or on the first option when
    [index] raises. *)
Definition default_index (opts : list str) (last_answer : str) : nat :=
  default 0%nat (list_index last_answer opts).

Definition feedback_selected (s : session) : option str :=
  match py_index (questions s) (current_question s) with
  | None => None
  | Some q_data =>
      valid_options q_data
        !! default_index (valid_options q_data)
             (default [] (user_answers s !! current_question s))
  end.

(* ===================================================================== *)
(** * The debugging tool: [extract_and_save_raw_text] of [debug.py]       *)
(* ===================================================================== *)

(** [sep.join(l)] *)
Fixpoint join (sep : str) (l : list str) : str :=
  match l with
  | [] => []
  | x :: l' =>
      match l' with
      | [] => x
      | _ :: _ => x ++ sep ++ join sep l'
      end
  end.

(** ** [json.dump(output_data, f, indent=2, ensure_ascii=False)]

    A model of the standard library's encoder for the dict the tool
    writes, two keys with string values: a string is written between
    double quotes, with the double quote, the backslash and the control
    characters escaped and every other character as it is. *)
Definition hex_digit (d : N) : N := if d <? 10 then 48 + d else 87 + d.

Definition escape_char (c : N) : str :=
  if c =? 34 then [92; 34]
  else if c =? 92 then [92; 92]
  else if c =? 10 then [92; 110]
  else if c =? 13 then [92; 114]
  else if c =? 9 then [92; 116]
  else if c =? 8 then [92; 98]
  else if c =? 12 then [92; 102]
  else if c <? 32 then [92; 117; 48; 48; hex_digit (c / 16); hex_digit (c mod 16)]
  else [c].

Definition encode_basestring (s : str) : str :=
  dquote :: flat_map escape_char s ++ [dquote].

Definition dump_output_data (file_path full_text : str) : str :=
  [123; 10; 32; 32]
  ++ encode_basestring (str_of "source_file") ++ [58; 32]
  ++ encode_basestring file_path ++ [44; 10; 32; 32]
  ++ encode_basestring (str_of "extracted_text") ++ [58; 32]
  ++ encode_basestring full_text ++ [10; 125].

(** A text file opened with [encoding="utf-8"] takes every character but
    the surrogates. *)
Definition is_surrogate (c : N) : bool := (55296 <=? c) && (c <=? 57343).

Definition utf8_encodable (s : str) : bool :=
  forallb (fun c => negb (is_surrogate c)) s.

(** What the tool finds outside: whether [os.path.exists(file_path)], the
    value of [os.path.splitext(file_path)[1].lower()], what [pdfplumber]
    makes of the file (an exception, or [page.extract_text()] for each
    page, [None] included), what [docx] makes of it (an exception, or
    [para.text] for each paragraph), and whether the output file opens
    for writing. *)
Record analyzed := {
  path_exists : bool;
  file_type : str;
  pdf_pages : str + list (option str);
  docx_paragraphs : str + list str;
  output_opens : bool
}.

Inductive tool_error :=
| LibraryError (cause : str)
| OpenError
| UnicodeEncodeError.

(** What the tool prints last. *)
Inductive report :=
| file_not_found (file_path : str)
| unsupported_file_type (type : str)
| raw_text_saved
| unexpected_error (e : tool_error).

(** The output file afterwards: not opened; written and closed; or
    opened for writing and left with whatever was written before the
    exception. *)
Inductive output_file :=
| Untouched
| Written (content : str)
| Incomplete.

(** [page.extract_text() for page in pdf.pages if page.extract_text()] *)
Definition page_texts (pages : list (option str)) : list str :=
  omap (fun t => match t with
                 | Some (c :: r) => Some (c :: r)
                 | _ => None
                 end) pages.

Definition pdf_text (pages : list (option str)) : str :=
  join [10] (page_texts pages).

Definition docx_text (paragraphs : list str) : str := join [10] paragraphs.

(** The part of the tool after the text is extracted. *)
Definition save_raw_text (file_path full_text : str) (f : analyzed)
  : output_file * report :=
  if negb (output_opens f) then (Untouched, unexpected_error OpenError)
  else
    let content := dump_output_data file_path full_text in
    if utf8_encodable content then (Written content, raw_text_saved)
    else (Incomplete, unexpected_error UnicodeEncodeError).

Definition extract_and_save_raw_text (file_path : str) (f : analyzed)
  : output_file * report :=
  if negb (path_exists f) then (Untouched, file_not_found file_path)
  else if str_eqb (file_type f) (str_of ".pdf") then
    match pdf_pages f with
    | inl cause => (Untouched, unexpected_error (LibraryError cause))
    | inr pages => save_raw_text file_path (pdf_text pages) f
    end
  else if str_eqb (file_type f) (str_of ".docx") then
    match docx_paragraphs f with
    | inl cause => (Untouched, unexpected_error (LibraryError cause))
    | inr paragraphs => save_raw_text file_path (docx_text paragraphs) f
    end
  else (Untouched, unsupported_file_type (file_type f)).

(** The text the tool extracts, when it does. *)
Definition extracted_text (f : analyzed) : option str :=
  if str_eqb (file_type f) (str_of ".pdf") then
    match pdf_pages f with
    | inr pages => Some (pdf_text pages)
    | inl _ => None
    end
  else if str_eqb (file_type f) (str_of ".docx") then
    match docx_paragraphs f with
    | inr paragraphs => Some (docx_text paragraphs)
    | inl _ => None
    end
  else None.

(** A PDF of three pages, the second without text. *)
Definition sample_pdf : analyzed :=
  {| path_exists := true;
     file_type := str_of ".pdf";
     pdf_pages := inr [Some (str_of "Q1"); None; Some (json_of "say 'a'")];
     docx_paragraphs := inl (str_of "not a docx");
     output_opens := true |}.

(* ===================================================================== *)
(** * Python's [==] on the values of the store                            *)
(* ===================================================================== *)

(** The value of a [float]: not a number, an infinity, or the finite
    number [m * 2^e]. *)
Inductive float_value :=
| FNaN
| FInf (negative : bool)
| FFinite (m e : Z).

(** The integer nearest to [a / b] for [0 < b], the even one of two
    equally near. *)
Definition round_half_even (a b : Z) : Z :=
  let q := (a / b)%Z in
  let r := (a mod b)%Z in
  if (2 * r <? b)%Z then q
  else if (b <? 2 * r)%Z then (q + 1)%Z
  else if Z.even q then q else (q + 1)%Z.

(** The binary64 number nearest to [p / q], for [0 < p] and [0 < q]:
    53 significant bits, the exponent of the last bit between -1074 and
    971, an infinity beyond. *)
Definition binary64 (p q : Z) : float_value :=
  let k0 := (Z.log2 p - Z.log2 q)%Z in
  let below := if (0 <=? k0)%Z then (p <? q * 2 ^ k0)%Z
               else (p * 2 ^ (- k0) <? q)%Z in
  let k := if below then (k0 - 1)%Z else k0 in
  let e := Z.max (k - 52) (-1074) in
  let m := if (0 <=? e)%Z then round_half_even p (q * 2 ^ e)
           else round_half_even (p * 2 ^ (- e)) q in
  if (971 <? e)%Z || ((e =? 971)%Z && (2 ^ 53 <=? m)%Z) then FInf false
  else FFinite m e.

Definition digits_value (ds : str) : Z :=
  fold_left (fun acc c => (10 * acc + Z.of_N (c - 48))%Z) ds 0%Z.

(** [float(a)] for the lexemes the decoder takes as floats. *)
Definition float_of_lexeme (a : str) : float_value :=
  if str_eqb a (str_of "NaN") then FNaN
  else if str_eqb a (str_of "Infinity") then FInf false
  else if str_eqb a (str_of "-Infinity") then FInf true
  else
    let '(neg, body) := match a with
                        | 45 :: b => (true, b)
                        | _ => (false, a)
                        end in
    let '(ip, r1) := span_digits body in
    let '(fp, r2) := match r1 with
                     | 46 :: r => span_digits r
                     | _ => ([], r1)
                     end in
    let ex := match r2 with
              | _ :: 45 :: ds => (- digits_value (fst (span_digits ds)))%Z
              | _ :: 43 :: ds => digits_value (fst (span_digits ds))
              | _ :: ds => digits_value (fst (span_digits ds))
              | [] => 0%Z
              end in
    let d := digits_value (ip ++ fp) in
    let e10 := (ex - Z.of_nat (length fp))%Z in
    if (d =? 0)%Z then FFinite 0 0
    else
      match (if (0 <=? e10)%Z then binary64 (d * 10 ^ e10) 1
             else binary64 d (10 ^ (- e10))) with
      | FFinite m e => FFinite (if neg then (- m)%Z else m) e
      | FInf _ => FInf neg
      | FNaN => FNaN
      end.

(** The numbers: [bool] is a subclass of [int], and an [int] and a
    [float] are compared by their exact values. *)
Inductive number :=
| NumInt (z : Z)
| NumFloat (f : float_value).

Definition as_number (v : pyval) : option number :=
  match v with
  | PBool b => Some (NumInt (if b then 1 else 0)%Z)
  | PInt z => Some (NumInt z)
  | PFloat a => Some (NumFloat (float_of_lexeme a))
  | _ => None
  end.

Definition float_eq (f g : float_value) : bool :=
  match f, g with
  | FInf a, FInf b => Bool.eqb a b
  | FFinite m e, FFinite m' e' =>
      let c := Z.min e e' in
      (m * 2 ^ (e - c) =? m' * 2 ^ (e' - c))%Z
  | _, _ => false
  end.

Definition number_eq (x y : number) : bool :=
  match x, y with
  | NumInt a, NumInt b => (a =? b)%Z
  | NumInt a, NumFloat f | NumFloat f, NumInt a => float_eq (FFinite a 0) f
  | NumFloat f, NumFloat g => float_eq f g
  end.

(** [a == b].  Lists are equal item by item, dicts when they have the
    same keys with equal values.  (The identity of objects, which makes
    a container equal to itself even where it holds a NaN, is not
    modelled.) *)
Fixpoint py_eq (a b : pyval) {struct a} : bool :=
  match a, b with
  | PNone, PNone => true
  | PStr s, PStr t => str_eqb s t
  | PList l, PList l' =>
      (fix items (l l' : list pyval) {struct l} : bool :=
         match l, l' with
         | [], [] => true
         | x :: r, y :: r' => py_eq x y && items r r'
         | _, _ => false
         end) l l'
  | PDict d, PDict d' =>
      (length d =? length d')%nat
      && (fix items (d : list (str * pyval)) {struct d} : bool :=
            match d with
            | [] => true
            | (k, v) :: r =>
                match dict_get d' k with
                | Some v' => py_eq v v'
                | None => false
                end && items r
            end) d
  | (PBool _ | PInt _ | PFloat _), (PBool _ | PInt _ | PFloat _) =>
      match as_number a, as_number b with
      | Some x, Some y => number_eq x y
      | _, _ => false
      end
  | _, _ => false
  end.

(* ===================================================================== *)
(** * The [finished] branch on the store as it is                         *)
(* ===================================================================== *)

(** The gateway validates nothing, so that the records of the store are
    whatever JSON values the reply holds, and the ledger holds the values
    the radio returned.  The expressions of the [finished] branch are
    given here on these values; [None] stands for an exception. *)

(** [for x in v]: the items of a list, the keys of a dict, the characters
    of a str. *)
Definition py_iter (v : pyval) : option (list pyval) :=
  match v with
  | PList l => Some l
  | PDict d => Some (List.map (fun kv => PStr (fst kv)) d)
  | PStr s => Some (List.map (fun c => PStr [c]) s)
  | _ => None
  end.

(** [answers.get(i, d)]; [answers.get(i)] is [answers.get(i, None)]. *)
Definition py_get (answers : gmap Z pyval) (i : Z) (d : pyval) : pyval :=
  default d (answers !! i).

(** For each record in turn: [answers.get(i, d) == q['answer']]. *)
Fixpoint verdicts (d : pyval) (answers : gmap Z pyval) (iqs : list (Z * pyval))
  : option (list bool) :=
  match iqs with
  | [] => Some []
  | (i, q) :: rest =>
      match py_getitem q (str_of "answer") with
      | None => None
      | Some correct_answer =>
          match verdicts d answers rest with
          | None => None
          | Some bs => Some (py_eq (py_get answers i d) correct_answer :: bs)
          end
      end
  end.

(** [sum(1 for i, q in enumerate(questions)
         if user_answers.get(i) == q['answer'])] *)
Definition py_score (questions : pyval) (user_answers : gmap Z pyval)
  : option nat :=
  match py_iter questions with
  | None => None
  | Some l =>
      match verdicts PNone user_answers (enumerate l) with
      | None => None
      | Some bs => Some (length (List.filter id bs))
      end
  end.

Definition not_answered : str := Eval cbv in str_of "Not Answered".

(** The expander "Review Your Answers": for each record in turn,
    [user_answers.get(i, "Not Answered") == q['answer']] decides between
    the line that marks the answer as correct and the line that shows
    the correct answer; both lines display [q['question']]. *)
Definition py_review (questions : pyval) (user_answers : gmap Z pyval)
  : option (list bool) :=
  match py_iter questions with
  | None => None
  | Some l =>
      match mapM (fun q => py_getitem q (str_of "question")) l with
      | None => None
      | Some _ => verdicts (PStr not_answered) user_answers (enumerate l)
      end
  end.

(** The indices without entry in the ledger whose record has an answer
    equal to [d]. *)
Definition unanswered_equal (d : pyval) (l : list pyval) (answers : gmap Z pyval)
  : nat :=
  length
    (List.filter
       (fun iq => match answers !! fst iq, py_getitem (snd iq) (str_of "answer") with
                  | None, Some a => py_eq d a
                  | _, _ => false
                  end)
       (enumerate l)).

(** A question record as a JSON object, and a ledger of strings as a
    ledger of values. *)
Definition record_of (q : question) : pyval :=
  PDict [ (str_of "question", PStr (q_question q));
          (str_of "options", PList (List.map PStr (q_options q)));
          (str_of "answer", PStr (q_answer q)) ].

Definition store_of (qs : list question) : pyval := PList (List.map record_of qs).

Definition ledger_of (answers : gmap Z str) : gmap Z pyval := PStr <$> answers.

(* ===================================================================== *)
(** * The gateway on every outcome of the calls                           *)
(* ===================================================================== *)

(** The calls to the model end in one of three ways: [genai.upload_file]
    or [model.generate_content] raises; the response has a text; or the
    response has none (a blocked prompt, a reply stopped by the safety
    filter), and reading [response.text] raises [ValueError]. *)
Inductive response :=
| NoResponse (cause : str)
| ResponseText (text : str)
| ResponseWithoutText (cause : str).

(** A call returns a value, or an exception leaves it. *)
Inductive outcome (A : Type) :=
| Returns (x : A)
| Raises (e : exn).
Arguments Returns {A} x.
Arguments Raises {A} e.

(** [parse_quiz_file_with_ai(file_path)] on the three outcomes.  For a
    response without text, line 76 raises inside the [try]; the handler
    displays the two errors and then evaluates [hasattr(response,
    'text')], which reads the property and catches [AttributeError]
    only: the [ValueError] leaves the handler, and the function returns
    nothing.  On the outcomes of [service] this is
    [parse_quiz_file_with_ai]. *)
Definition parse_quiz_file_with_ai_outcome (sec : secrets) (r : response)
  : outcome pyval * list message :=
  let '(ok, msgs) := configure_ai sec in
  if negb ok then (Returns (PList []), msgs)
  else
    match r with
    | NoResponse cause =>
        (Returns (PList []), [info_analyzing; error_analyzing;
                              error_details (ServiceError cause)])
    | ResponseWithoutText cause =>
        (Raises (ServiceError cause), [info_analyzing; error_analyzing;
                                       error_details (ServiceError cause)])
    | ResponseText text =>
        let json_text := clean_reply text in
        match json_loads json_text with
        | inl e =>
            (Returns (PList []), [info_analyzing; error_analyzing;
                                  error_details e; code_raw text])
        | inr questions =>
            match py_len questions with
            | None =>
                (Returns (PList []), [info_analyzing; error_analyzing;
                                      error_details TypeError; code_raw text])
            | Some n => (Returns questions, [info_analyzing; success_found n])
            end
        end
    end.

(** The outcomes of [service] among the three. *)
Definition response_of (svc : service) : response :=
  match svc with
  | Unreachable cause => NoResponse cause
  | Reply text => ResponseText text
  end.

(* ===================================================================== *)
(** * The session on the store as it is                                   *)
(* ===================================================================== *)

(** [main] again, on [st.session_state] as the program has it: the store
    is the value the gateway returned, its records are read with
    [q_data['question']], [q_data["options"]] and [q_data['answer']]
    where the program reads them, and the ledger holds the values the
    radio returned.  The sessions of [session] are those whose store is
    a list of question records. *)
Record py_session := {
  py_state : phase;
  py_questions : pyval;
  py_current_question : Z;
  py_user_answers : gmap Z pyval
}.

Definition py_new_session : py_session :=
  {| py_state := initial; py_questions := PList []; py_current_question := 0%Z;
     py_user_answers := ∅ |}.

(** [bool(v)] *)
Definition py_truthy (v : pyval) : bool :=
  match v with
  | PNone => false
  | PBool b => b
  | PInt z => negb (z =? 0)%Z
  | PFloat a => match float_of_lexeme a with
                | FFinite m _ => negb (m =? 0)%Z
                | _ => true
                end
  | PStr s => negb (str_eqb s [])
  | PList l => match l with [] => false | _ :: _ => true end
  | PDict d => match d with [] => false | _ :: _ => true end
  end.

(** [v[i]] for an [int]: an item of a list, a character of a str; a dict
    of the decoder has strings for keys ([KeyError]). *)
Definition py_subscript (v : pyval) (i : Z) : option pyval :=
  match v with
  | PList l => py_index l i
  | PStr s => (fun c => PStr [c]) <$> py_index s i
  | _ => None
  end.

(** [[opt for opt in q_data["options"] if opt]] *)
Definition py_valid_options (q_data : pyval) : option (list pyval) :=
  match py_getitem q_data (str_of "options") with
  | None => None
  | Some options =>
      match py_iter options with
      | None => None
      | Some opts => Some (List.filter py_truthy opts)
      end
  end.

Inductive py_action :=
| PyRerun
| PyUpload (sec : secrets) (r : response)
| PyJump (question_jumper : str)
| PyCheckAnswer (user_choice : pyval)
| PyNextButton
| PyNewQuiz.

Definition py_jump_to_question (question_jumper : str) (s : py_session)
  : option py_session :=
  match split 32 question_jumper !! 1%nat with
  | None => None
  | Some w =>
      match py_int w with
      | None => None
      | Some n =>
          Some {| py_state := quiz_started;
                  py_questions := py_questions s;
                  py_current_question := (n - 1)%Z;
                  py_user_answers := py_user_answers s |}
      end
  end.

(** The form's submit: [user_answers[q_index] = user_choice]. *)
Definition py_submit_answer (user_choice : pyval) (s : py_session) : py_session :=
  {| py_state := show_feedback;
     py_questions := py_questions s;
     py_current_question := py_current_question s;
     py_user_answers :=
       <[py_current_question s := user_choice]> (py_user_answers s) |}.

(** The button of [show_feedback], [n] being [len(questions)]. *)
Definition py_next_question (n : nat) (s : py_session) : py_session :=
  let is_last_question := (py_current_question s + 1 =? Z.of_nat n)%Z in
  if negb is_last_question then
    {| py_state := quiz_started;
       py_questions := py_questions s;
       py_current_question := (py_current_question s + 1)%Z;
       py_user_answers := py_user_answers s |}
  else
    {| py_state := finished;
       py_questions := py_questions s;
       py_current_question := py_current_question s;
       py_user_answers := py_user_answers s |}.

(** One run of [main] after the action [a]; [None] is an uncaught
    exception.  The [finished] branch evaluates the score and the review
    before its button; the quiz displays [q_data['question']] and builds
    [valid_options] before the form, and reads [q_data['answer']] in
    [show_feedback] before the button.  As in [main], what the widgets
    themselves check of their arguments is not modelled. *)
Definition py_main (a : py_action) (s : py_session) : option py_session :=
  match py_state s with
  | initial =>
      match a with
      | PyUpload sec r =>
          match fst (parse_quiz_file_with_ai_outcome sec r) with
          | Raises _ => None
          | Returns v =>
              Some {| py_state := if py_truthy v then quiz_started else initial;
                      py_questions := v;
                      py_current_question := py_current_question s;
                      py_user_answers := py_user_answers s |}
          end
      | _ => Some s
      end
  | finished =>
      match py_score (py_questions s) (py_user_answers s),
            py_review (py_questions s) (py_user_answers s) with
      | Some _, Some _ =>
          match a with
          | PyNewQuiz => Some py_new_session
          | _ => Some s
          end
      | _, _ => None
      end
  | quiz_started | show_feedback =>
      match (match a with
             | PyJump question_jumper => py_jump_to_question question_jumper s
             | _ => Some s
             end) with
      | None => None
      | Some s1 =>
          match py_subscript (py_questions s1) (py_current_question s1) with
          | None => None
          | Some q_data =>
              match py_getitem q_data (str_of "question"),
                    py_valid_options q_data with
              | Some _, Some _ =>
                  match py_state s1 with
                  | quiz_started =>
                      match a with
                      | PyCheckAnswer user_choice =>
                          Some (py_submit_answer user_choice s1)
                      | _ => Some s1
                      end
                  | show_feedback =>
                      match py_getitem q_data (str_of "answer"),
                            py_len (py_questions s1) with
                      | Some _, Some n =>
                          match a with
                          | PyNextButton => Some (py_next_question n s1)
                          | _ => Some s1
                          end
                      | _, _ => None
                      end
                  | _ => Some s1
                  end
              | _, _ => None
              end
          end
      end
  end.

Fixpoint py_run (acts : list py_action) (s : py_session) : option py_session :=
  match acts with
  | [] => Some s
  | a :: acts' =>
      match py_main a s with
      | None => None
      | Some s' => py_run acts' s'
      end
  end.

(** The sessions of [session] among these. *)
Definition py_session_of (s : session) : py_session :=
  {| py_state := state s;
     py_questions := store_of (questions s);
     py_current_question := current_question s;
     py_user_answers := ledger_of (user_answers s) |}.

Definition py_action_of (a : action) : py_action :=
  match a with
  | Rerun => PyRerun
  | Upload sec svc => PyUpload sec (response_of svc)
  | Jump question_jumper => PyJump question_jumper
  | CheckAnswer user_choice => PyCheckAnswer (PStr user_choice)
  | NextButton => PyNextButton
  | NewQuiz => PyNewQuiz
  end.

(* ===================================================================== *)
(** * What the two replacements delete                                    *)
(* ===================================================================== *)

(** [str.replace(old, '')], by what it does: [deletes old s r] when [r]
    is [s] without the occurrences of [old], found from the left, each
    one beginning where the one before ends or later; everything else is
    kept, in order.  In [deletes_first] the text [a] before the
    occurrence is such that [old] begins nowhere in it: [old] does not
    occur in [a] followed by all of [old] but its last character. *)
Inductive deletes (old : str) : str → str → Prop :=
| deletes_none s :
    contains old s = false →
    deletes old s s
| deletes_first a b r :
    contains old (a ++ removelast old) = false →
    deletes old b r →
    deletes old (a ++ old ++ b) (a ++ r).

(** A text cut by fences: each piece is preceded by a fence, with the
    [json] tag or without. *)
Fixpoint with_fences (pieces : list (bool * str)) : str :=
  match pieces with
  | [] => []
  | (lang, b) :: rest =>
      (if lang then fence_json else fence) ++ b ++ with_fences rest
  end.

(** The pieces hold no backtick, and the text after a fence without tag
    does not begin with [json]: the fences of [with_fences] are the
    occurrences of [```json] and [```] in the text, and the only ones. *)
Definition piece_ok (p : bool * str) : Prop :=
  (96 ∉ snd p) ∧ (fst p = false → startswith (str_of "json") (snd p) = false).

(** The pieces alone. *)
Definition without_fences (pieces : list (bool * str)) : str :=
  concat (List.map snd pieces).

(* ===================================================================== *)
(** * Sample data                                                         *)
(* ===================================================================== *)

Definition sample_key : str := Eval cbv in str_of "key".

(** a reply whose only record names an answer that is none of its options *)
Definition reply_mismatch : str :=
  Eval cbv in json_of "[{'question':'Q','options':['A','B'],'answer':'C'}]".

Definition record_mismatch : pyval :=
  PDict [ (str_of "question", PStr (str_of "Q"));
          (str_of "options", PList [PStr (str_of "A"); PStr (str_of "B")]);
          (str_of "answer", PStr (str_of "C")) ].

Definition reply_arith : str :=
  Eval cbv in json_of "[{'question':'2+2?','options':['3','4'],'answer':'4'}]".

Definition q_arith : question :=
  {| q_question := str_of "2+2?";
     q_options := [str_of "3"; str_of "4"];
     q_answer := str_of "4" |}.

Definition q_noise : question :=
  {| q_question := str_of "Q";
     q_options := [str_of "A"; []; str_of "B"];
     q_answer := str_of "B" |}.

Definition session_at (p : phase) (i : Z) (answers : gmap Z str) : session :=
  {| state := p; questions := [q_arith; q_noise]; current_question := i;
     user_answers := answers |}.

(** a record whose question holds two fences *)
Definition reply_backticks : str :=
  Eval cbv in
    json_of "[{'question':'What prints ```x```?','options':['x','y'],'answer':'x'}]".

(** a reply whose first record has the answer [null] *)
Definition reply_null : str :=
  Eval cbv in
    json_of "[{'question':'Q1','options':['A','B'],'answer':null},{'question':'Q2','options':['C','D'],'answer':'C'}]".

Definition record_null : pyval :=
  PDict [ (str_of "question", PStr (str_of "Q1"));
          (str_of "options", PList [PStr (str_of "A"); PStr (str_of "B")]);
          (str_of "answer", PNone) ].

Definition record_c : pyval :=
  PDict [ (str_of "question", PStr (str_of "Q2"));
          (str_of "options", PList [PStr (str_of "C"); PStr (str_of "D")]);
          (str_of "answer", PStr (str_of "C")) ].

(* ===================================================================== *)
(** * Facts about the string operations                                   *)
(* ===================================================================== *)

Section strings.
Implicit Types (s p old new : str) (c : N).

Lemma startswith_prefix p s :
  startswith p s = true ↔ ∃ r, s = p ++ r.
Proof.
  revert s. induction p as [|a p IH]; intros s; simpl.
  - split; eauto.
  - destruct s as [|b s]; simpl.
    + split; [discriminate | intros [r Hr]; discriminate].
    + rewrite andb_true_iff, N.eqb_eq, IH. split.
      * intros [-> [r ->]]. eauto.
      * intros [r Hr]. injection Hr as -> ->. eauto.
Qed.

Lemma startswith_app p r : startswith p (p ++ r) = true.
Proof. apply startswith_prefix. eauto. Qed.

Lemma startswith_length p s : startswith p s = true → (length p ≤ length s)%nat.
Proof.
  intros [r ->]%startswith_prefix. rewrite length_app. lia.
Qed.

(** A character foreign to [p] ends the part of the text [p] can match. *)
Lemma startswith_sep p a c b :
  c ∉ p → startswith p (a ++ c :: b) = startswith p a.
Proof.
  revert a. induction p as [|o p IH]; intros a Hc; [done|].
  apply not_elem_of_cons in Hc as [Hne Hc].
  destruct a as [|x a]; simpl.
  - apply N.eqb_neq in Hne. rewrite N.eqb_sym in Hne. by rewrite Hne.
  - by rewrite IH.
Qed.

Lemma replace_from_skip old new k s :
  replace_from old new k s = replace old new (drop k s).
Proof.
  revert k. induction s as [|c s IH]; intros [|k]; simpl; done.
Qed.

(** The equation [str.replace] satisfies. *)
Lemma replace_cons old new c s :
  old ≠ [] →
  replace old new (c :: s) =
    if startswith old (c :: s)
    then new ++ replace old new (drop (length old) (c :: s))
    else c :: replace old new s.
Proof.
  intros Hold. unfold replace at 1. simpl replace_from.
  destruct old as [|o old]; [done|].
  destruct (startswith (o :: old) (c :: s)); [|done].
  by rewrite replace_from_skip.
Qed.

Lemma replace_nil old new : replace old new [] = [].
Proof. done. Qed.

Lemma replace_match old new r :
  old ≠ [] → replace old new (old ++ r) = new ++ replace old new r.
Proof.
  intros Hold. destruct old as [|o old]; [done|].
  change ((o :: old) ++ r) with (o :: (old ++ r)).
  rewrite replace_cons by done.
  change (o :: (old ++ r)) with ((o :: old) ++ r).
  by rewrite startswith_app, drop_app_length.
Qed.

Lemma replace_no_match old new c s :
  old ≠ [] → startswith old (c :: s) = false →
  replace old new (c :: s) = c :: replace old new s.
Proof. intros Hold H. by rewrite replace_cons, H. Qed.

(** Replacement works on both sides of a character foreign to [old]. *)
Lemma replace_sep old new a c b :
  old ≠ [] → c ∉ old →
  replace old new (a ++ c :: b) = replace old new a ++ c :: replace old new b.
Proof.
  intros Hold Hc.
  remember (length a) as n eqn:Hn. revert a Hn.
  induction n as [n IH] using lt_wf_ind. intros a Hn.
  destruct a as [|x a].
  - simpl. rewrite replace_no_match; [done..|].
    pose proof (startswith_sep old [] c b Hc) as H. simpl in H.
    rewrite H. by destruct old.
  - destruct (startswith old (x :: a)) eqn:Hsw.
    + apply startswith_prefix in Hsw as [r Hr]. rewrite Hr.
      rewrite <- app_assoc, !replace_match, <- app_assoc by done.
      f_equal. apply (IH (length r)); [|done].
      subst n. rewrite Hr, length_app. destruct old; [done|simpl; lia].
    + change ((x :: a) ++ c :: b) with (x :: (a ++ c :: b)).
      rewrite !replace_no_match; try done.
      * simpl. f_equal. apply (IH (length a)); [subst n; simpl; lia | done].
      * change (x :: (a ++ c :: b)) with ((x :: a) ++ c :: b).
        by rewrite startswith_sep.
Qed.

Lemma replace_sep_l old new c b :
  old ≠ [] → c ∉ old → replace old new (c :: b) = c :: replace old new b.
Proof. intros. by apply (replace_sep old new [] c b). Qed.

Lemma replace_sep_r old new a c :
  old ≠ [] → c ∉ old → replace old new (a ++ [c]) = replace old new a ++ [c].
Proof. intros. by rewrite replace_sep. Qed.

(** Replacing by the empty string only deletes characters. *)
Lemma replace_sublist old s : old ≠ [] → sublist (replace old [] s) s.
Proof.
  intros Hold.
  remember (length s) as n eqn:Hn. revert s Hn.
  induction n as [n IH] using lt_wf_ind. intros s Hn.
  destruct s as [|x s]; [done|].
  rewrite replace_cons by done.
  destruct (startswith old (x :: s)) eqn:Hsw.
  - simpl app. etrans; [|apply sublist_drop].
    apply (IH (length (drop (length old) (x :: s)))); [|done].
    subst n. rewrite length_drop. destruct old; [done|simpl; lia].
  - apply sublist_skip, (IH (length s)); [subst n; simpl; lia | done].
Qed.

Lemma lstrip_suffix s : ∃ w, s = w ++ lstrip s.
Proof.
  induction s as [|c s [w IH]]; simpl; [by exists []|].
  destruct (isspace c); [|by exists []].
  exists (c :: w). simpl. by f_equal.
Qed.

Lemma rstrip_snoc s c :
  rstrip (s ++ [c]) = if isspace c then rstrip s else s ++ [c].
Proof.
  unfold rstrip. rewrite rev_app_distr. simpl.
  destruct (isspace c); [done|].
  simpl. by rewrite rev_involutive.
Qed.

Lemma rstrip_nil : rstrip [] = [].
Proof. done. Qed.

Lemma strip_sublist s : sublist (strip s) s.
Proof.
  unfold strip. trans (lstrip s).
  - generalize (lstrip s). intros t.
    induction t as [|c t IH] using rev_ind; [done|].
    rewrite rstrip_snoc. destruct (isspace c); [|done].
    etrans; [exact IH|]. apply sublist_inserts_r. done.
  - destruct (lstrip_suffix s) as [w Hw]. rewrite Hw at 2.
    by apply sublist_inserts_l.
Qed.

Lemma contains_mono p q s :
  (∀ t, startswith p t = true → startswith q t = true) →
  contains p s = true → contains q s = true.
Proof.
  intros Hpq. induction s as [|c s IH]; simpl.
  - rewrite !orb_false_r. apply Hpq.
  - rewrite !orb_true_iff. intros [H|H]; [left; by apply Hpq | right; by apply IH].
Qed.
End strings.

(** ** The fence [```] *)

Section fences.
Implicit Types (s : str).

Lemma startswith_fence s :
  startswith fence s = true ↔ (3 ≤ backticks s)%nat.
Proof.
  unfold fence.
  destruct s as [|a [|b [|c s]]]; cbn [startswith backticks andb];
    rewrite ?(N.eqb_sym 96);
    repeat (match goal with |- context [?x =? 96] => destruct (x =? 96) end;
            cbn [andb]);
    split; intros H; try done; try lia.
Qed.

Lemma fence_not_nil : fence ≠ [].
Proof. done. Qed.

Lemma fence_json_not_nil : fence_json ≠ [].
Proof. done. Qed.

Lemma backticks_fence s : backticks (fence ++ s) = (3 + backticks s)%nat.
Proof. done. Qed.

(** Of each run of backticks, [replace] leaves the remainder modulo 3. *)
Lemma backticks_replace s :
  backticks (replace fence [] s) = (backticks s mod 3)%nat.
Proof.
  remember (length s) as n eqn:Hn. revert s Hn.
  induction n as [n IH] using lt_wf_ind. intros s Hn.
  destruct s as [|c s]; [done|].
  destruct (startswith fence (c :: s)) eqn:Hsw.
  - apply startswith_prefix in Hsw as [r Hr]. rewrite Hr.
    rewrite replace_match, backticks_fence by done. simpl app.
    rewrite (IH (length r)); [|subst n; rewrite Hr; simpl; lia|done].
    replace (3 + backticks r)%nat with (backticks r + 1 * 3)%nat by lia.
    by rewrite Nat.Div0.mod_add.
  - rewrite replace_no_match by done.
    assert (backticks (c :: s) < 3)%nat as Hlt.
    { destruct (decide (3 ≤ backticks (c :: s))%nat) as [H|H]; [|lia].
      apply startswith_fence in H. congruence. }
    rewrite (Nat.mod_small _ _ Hlt).
    cbn [backticks] in *. destruct (c =? 96); [|done].
    f_equal. rewrite (IH (length s)) by (done || subst n; simpl; lia).
    apply Nat.mod_small. lia.
Qed.

Lemma replace_fence_clean s : contains fence (replace fence [] s) = false.
Proof.
  remember (length s) as n eqn:Hn. revert s Hn.
  induction n as [n IH] using lt_wf_ind. intros s Hn.
  destruct s as [|c s]; [done|].
  destruct (startswith fence (c :: s)) eqn:Hsw.
  - apply startswith_prefix in Hsw as [r Hr]. rewrite Hr.
    rewrite replace_match by done. simpl app.
    apply (IH (length r)); [subst n; rewrite Hr; simpl; lia|done].
  - pose proof (backticks_replace (c :: s)) as Hb.
    rewrite replace_no_match in * by done.
    change (contains fence (c :: replace fence [] s))
      with (startswith fence (c :: replace fence [] s)
            || contains fence (replace fence [] s)).
    rewrite (IH (length s)) by (done || subst n; simpl; lia).
    rewrite orb_false_r. apply not_true_is_false.
    intros H%startswith_fence. rewrite Hb in H.
    pose proof (Nat.mod_upper_bound (backticks (c :: s)) 3). lia.
Qed.

Lemma startswith_fence_json s :
  startswith fence_json s = true → startswith fence s = true.
Proof.
  intros [r ->]%startswith_prefix. apply startswith_prefix.
  exists (str_of "json" ++ r). done.
Qed.

Lemma clean_reply_no_fence text : contains fence (clean_reply text) = false.
Proof. apply replace_fence_clean. Qed.

Lemma clean_reply_sublist text : sublist (clean_reply text) text.
Proof.
  unfold clean_reply.
  etrans; [apply replace_sublist, fence_not_nil|].
  etrans; [apply replace_sublist, fence_json_not_nil|].
  apply strip_sublist.
Qed.
End fences.

(* ===================================================================== *)
(** * Facts about the JSON decoder                                        *)
(* ===================================================================== *)

Section decoder.
Implicit Types (s t : str) (c : N) (st : lstate).

Local Opaque atom_value.

Lemma is_json_ws_cases c :
  is_json_ws c = true → c = 32 ∨ c = 9 ∨ c = 10 ∨ c = 13.
Proof.
  unfold is_json_ws. rewrite !orb_true_iff, !N.eqb_eq. tauto.
Qed.

Lemma json_ws_isspace c : is_json_ws c = true → isspace c = true.
Proof. intros H. by destruct (is_json_ws_cases c H) as [->|[->|[->| ->]]]. Qed.

(** Whitespace at the end of the text is ignored, whatever the scanner
    is in the middle of: inside a string the text ends unterminated
    either way. *)
Lemma lex_ws_end st c : is_json_ws c = true → lex st [c] = lend st.
Proof.
  intros H.
  destruct (is_json_ws_cases c H) as [->|[->|[->| ->]]];
    destruct st; cbn; try done;
    by destruct (atom_value _).
Qed.

Lemma lex_snoc_ws st s c :
  is_json_ws c = true → lex st (s ++ [c]) = lex st s.
Proof.
  intros H. revert st. induction s as [|a s IH]; intros st.
  - by apply lex_ws_end.
  - cbn [app lex]. destruct (lstep st a) as [[toks st']|]; [|done].
    by rewrite IH.
Qed.

Lemma lex_cons_ws s c :
  is_json_ws c = true → lex LTop (c :: s) = lex LTop s.
Proof.
  intros H. cbn [lex lstep]. unfold lstep_top. rewrite H.
  by destruct (lex LTop s).
Qed.

(** The other characters [strip] removes are no JSON whitespace: the
    decoder rejects a text that begins or ends with one. *)
Lemma isspace_cases c :
  isspace c = true → is_json_ws c = false → c ∈ [11; 12; 28; 29; 30; 31; 133; 160; 5760;
    8192; 8193; 8194; 8195; 8196; 8197; 8198; 8199; 8200; 8201; 8202;
    8232; 8233; 8239; 8287; 12288].
Proof.
  unfold isspace. intros H Hws.
  apply existsb_exists in H as [x [Hx ->%N.eqb_eq]].
  apply list_elem_of_In.
  simpl in Hx. simpl.
  repeat (destruct Hx as [<-|Hx]; [first [discriminate Hws | tauto]|]).
  done.
Qed.

Lemma lex_space_end st c :
  isspace c = true → is_json_ws c = false → lex st [c] = None.
Proof.
  intros H Hws. pose proof (isspace_cases c H Hws) as Hc.
  apply list_elem_of_In in Hc. simpl in Hc.
  repeat (destruct Hc as [<-|Hc];
          [destruct st; cbn; try done; by destruct (atom_value _)|]).
  done.
Qed.

Lemma lex_snoc_space st s c :
  isspace c = true → is_json_ws c = false → lex st (s ++ [c]) = None.
Proof.
  intros H Hws. revert st. induction s as [|a s IH]; intros st.
  - by apply lex_space_end.
  - cbn [app lex]. destruct (lstep st a) as [[toks st']|]; [|done].
    by rewrite IH.
Qed.

Lemma lex_cons_space s c :
  isspace c = true → is_json_ws c = false → lex LTop (c :: s) = None.
Proof.
  intros H Hws. pose proof (isspace_cases c H Hws) as Hc.
  apply list_elem_of_In in Hc. simpl in Hc.
  repeat (destruct Hc as [<-|Hc]; [done|]).
  done.
Qed.

Lemma json_loads_lex s t :
  lex LTop s = lex LTop t → json_loads s = json_loads t.
Proof. unfold json_loads. by intros ->. Qed.
End decoder.

(* ===================================================================== *)
(** * Facts about the gateway                                             *)
(* ===================================================================== *)

Section gateway.
Implicit Types (s t text : str) (c : N).

Lemma json_ws_not_fence c :
  is_json_ws c = true → (c ∉ fence_json) ∧ (c ∉ fence).
Proof.
  intros H. rewrite !list_elem_of_In.
  destruct (is_json_ws_cases c H) as [->|[->|[->| ->]]];
    simpl; intuition discriminate.
Qed.

Lemma unfence_cons_ws c s :
  is_json_ws c = true → unfence (c :: s) = c :: unfence s.
Proof.
  intros [H1 H2]%json_ws_not_fence. unfold unfence.
  by rewrite !replace_sep_l.
Qed.

Lemma unfence_snoc_ws c s :
  is_json_ws c = true → unfence (s ++ [c]) = unfence s ++ [c].
Proof.
  intros [H1 H2]%json_ws_not_fence. unfold unfence.
  by rewrite !replace_sep_r.
Qed.

(** On a text the decoder accepts, [strip] removes JSON whitespace only,
    which the replacements do not touch and the decoder skips. *)
Lemma lex_unfence_lstrip t :
  lex LTop t ≠ None →
  lex LTop (unfence (lstrip t)) = lex LTop (unfence t) ∧
  lex LTop (lstrip t) ≠ None.
Proof.
  induction t as [|c t IH]; intros Hv; [done|].
  cbn [lstrip]. destruct (isspace c) eqn:Hsp; [|done].
  destruct (is_json_ws c) eqn:Hws.
  - rewrite lex_cons_ws in Hv by done.
    rewrite unfence_cons_ws, lex_cons_ws by done. by apply IH.
  - by rewrite lex_cons_space in Hv.
Qed.

Lemma lex_unfence_rstrip t :
  lex LTop t ≠ None →
  lex LTop (unfence (rstrip t)) = lex LTop (unfence t).
Proof.
  induction t as [|c t IH] using rev_ind; intros Hv; [done|].
  rewrite rstrip_snoc. destruct (isspace c) eqn:Hsp; [|done].
  destruct (is_json_ws c) eqn:Hws.
  - rewrite lex_snoc_ws in Hv by done.
    rewrite unfence_snoc_ws, lex_snoc_ws by done. by apply IH.
  - by rewrite lex_snoc_space in Hv.
Qed.

Lemma lex_clean_valid t :
  lex LTop t ≠ None →
  lex LTop (clean_reply t) = lex LTop (unfence t).
Proof.
  intros Hv. change (clean_reply t) with (unfence (strip t)).
  destruct (lex_unfence_lstrip t Hv) as [H1 H2].
  unfold strip. by rewrite lex_unfence_rstrip.
Qed.

(** No occurrence of [```json] ends inside a closing fence. *)
Lemma startswith_fence_json_closing y :
  startswith fence_json (y ++ fence) = startswith fence_json y.
Proof.
  unfold fence_json, fence.
  destruct y as [|a [|b [|c [|d [|e [|f [|g y]]]]]]];
    cbn [app startswith];
    repeat (match goal with
            | |- context [?u =? ?v] =>
                destruct (N.eqb_spec u v); cbn [andb]; try discriminate
            end); try done.
Qed.

Lemma replace_fence_json_closing x :
  replace fence_json [] (x ++ fence) = replace fence_json [] x ++ fence.
Proof.
  remember (length x) as n eqn:Hn. revert x Hn.
  induction n as [n IH] using lt_wf_ind. intros x Hn.
  destruct x as [|c x]; [done|].
  destruct (startswith fence_json (c :: x)) eqn:Hsw.
  - apply startswith_prefix in Hsw as [r Hr]. rewrite Hr.
    rewrite <- app_assoc, !replace_match by done. simpl app.
    apply (IH (length r)); [subst n; rewrite Hr; simpl; lia | done].
  - change ((c :: x) ++ fence) with (c :: (x ++ fence)).
    rewrite !replace_no_match; try done.
    + simpl. f_equal. apply (IH (length x)); [subst n; simpl; lia | done].
    + change (c :: (x ++ fence)) with ((c :: x) ++ fence).
      by rewrite startswith_fence_json_closing.
Qed.

(** A closing fence lengthens a final run of backticks by three, which
    the replacement takes away again. *)
Lemma backticks_app_fence x :
  (backticks x < 3)%nat → startswith fence (x ++ fence) = true →
  x ++ fence = fence ++ x.
Proof.
  unfold fence. intros Hb Hsw.
  destruct x as [|a [|b [|c x]]]; cbn [app startswith backticks] in *.
  - done.
  - destruct (N.eqb_spec 96 a) as [<-|]; [done | discriminate].
  - destruct (N.eqb_spec 96 a) as [<-|]; [|discriminate].
    destruct (N.eqb_spec 96 b) as [<-|]; [done | discriminate].
  - destruct (N.eqb_spec 96 a) as [<-|]; [|discriminate].
    destruct (N.eqb_spec 96 b) as [<-|]; [|discriminate].
    destruct (N.eqb_spec 96 c) as [<-|]; [|discriminate].
    cbn in Hb. lia.
Qed.

Lemma replace_fence_closing x :
  replace fence [] (x ++ fence) = replace fence [] x.
Proof.
  remember (length x) as n eqn:Hn. revert x Hn.
  induction n as [n IH] using lt_wf_ind. intros x Hn.
  destruct x as [|c x]; [done|].
  destruct (startswith fence (c :: x)) eqn:Hsw.
  - apply startswith_prefix in Hsw as [r Hr]. rewrite Hr.
    rewrite <- app_assoc, !replace_match by done. simpl app.
    apply (IH (length r)); [subst n; rewrite Hr; simpl; lia | done].
  - destruct (startswith fence ((c :: x) ++ fence)) eqn:Hsw'.
    + rewrite backticks_app_fence; [by rewrite replace_match| |done].
      destruct (decide (3 ≤ backticks (c :: x))%nat) as [H|H]; [|lia].
      apply startswith_fence in H. congruence.
    + change ((c :: x) ++ fence) with (c :: (x ++ fence)) in *.
      rewrite !replace_no_match by done.
      f_equal. apply (IH (length x)); [subst n; simpl; lia | done].
Qed.

(** After an opening [```] the text of a value begins: no [```json]. *)
Lemma replace_fence_json_opening c y :
  c ≠ 106 → c ≠ 96 →
  replace fence_json [] (fence ++ c :: y) = fence ++ replace fence_json [] (c :: y).
Proof.
  intros Hj Hb. unfold fence. cbn [app].
  rewrite !(replace_no_match fence_json); try done; unfold fence_json;
    cbn [startswith];
    repeat (match goal with
            | |- context [?u =? ?v] =>
                destruct (N.eqb_spec u v); cbn [andb]; try done
            end); congruence.
Qed.

Lemma unfence_blank_l w s : json_blank w → unfence (w ++ s) = w ++ unfence s.
Proof.
  induction 1 as [|c w Hc _ IH]; [done|].
  simpl. by rewrite unfence_cons_ws, IH.
Qed.

Lemma unfence_blank_r w s : json_blank w → unfence (s ++ w) = unfence s ++ w.
Proof.
  intros Hw. revert s. induction Hw as [|c w Hc _ IH]; intros s.
  - by rewrite !app_nil_r.
  - change (c :: w) with ([c] ++ w). rewrite !app_assoc, IH.
    by rewrite unfence_snoc_ws.
Qed.

Lemma lex_blank_l w s : json_blank w → lex LTop (w ++ s) = lex LTop s.
Proof.
  induction 1 as [|c w Hc _ IH]; [done|]. simpl app. by rewrite lex_cons_ws.
Qed.

Lemma lex_blank_r w s : json_blank w → lex LTop (s ++ w) = lex LTop s.
Proof.
  intros Hw. revert s. induction Hw as [|c w Hc _ IH]; intros s.
  - by rewrite app_nil_r.
  - change (c :: w) with ([c] ++ w). rewrite app_assoc, IH.
    by rewrite lex_snoc_ws.
Qed.

(** No value begins with a backtick or with the letter [j]. *)
Lemma atom_value_j x : atom_value (106 :: x) = None.
Proof.
  unfold atom_value, str_eqb. repeat (case_bool_decide; [done|]). done.
Qed.

Lemma lex_atom_j acc x s : rev acc = 106 :: x → lex (LAtom acc) s = None.
Proof.
  revert acc x. induction s as [|c s IH]; intros acc x Hacc.
  - cbn [lex lend]. by rewrite Hacc, atom_value_j.
  - cbn [lex lstep]. destruct (is_atom_char c).
    + rewrite (IH (c :: acc) (x ++ [c])); [done|]. simpl. by rewrite Hacc.
    + by rewrite Hacc, atom_value_j.
Qed.

Lemma lex_first_char c s :
  lex LTop (c :: s) ≠ None → c ≠ 106 ∧ c ≠ 96.
Proof.
  intros H. split; intros ->; apply H.
  - change (lex LTop (106 :: s))
      with (match lex (LAtom [106]) s with
            | Some rest => Some ([] ++ rest)
            | None => None
            end).
    by rewrite (lex_atom_j [106] [] s).
  - done.
Qed.

(** The fences are no whitespace: [strip] leaves a fenced reply as it is. *)
Lemma strip_fenced (lang : bool) w1 w2 t :
  strip (fenced lang w1 w2 t) = fenced lang w1 w2 t.
Proof.
  unfold strip.
  assert (lstrip (fenced lang w1 w2 t) = fenced lang w1 w2 t) as ->
    by by destruct lang.
  assert (∃ m, fenced lang w1 w2 t = m ++ [96]) as [m ->].
  { exists ((if lang then fence_json else fence) ++ w1 ++ t ++ w2 ++ [96; 96]).
    unfold fenced, fence. by rewrite <- !app_assoc. }
  by rewrite rstrip_snoc.
Qed.

(** The two replacements delete the fences around a text that begins
    like a JSON text, and do in it what they do without them. *)
Lemma unfence_fenced (lang : bool) y c y' :
  y = c :: y' → c ≠ 106 → c ≠ 96 →
  unfence ((if lang then fence_json else fence) ++ y ++ fence) = unfence y.
Proof.
  intros -> Hj Hb. unfold unfence. destruct lang.
  - rewrite replace_match, app_nil_l by done.
    by rewrite replace_fence_json_closing, replace_fence_closing.
  - rewrite app_assoc, replace_fence_json_closing.
    rewrite replace_fence_json_opening by done.
    by rewrite replace_fence_closing, replace_match.
Qed.

(** What is left of a fenced reply: the cleaned text, in its whitespace. *)
Lemma clean_reply_fenced (lang : bool) w1 w2 t :
  json_blank w1 → json_blank w2 → lex LTop t ≠ None → t ≠ [] →
  clean_reply (fenced lang w1 w2 t) = w1 ++ unfence t ++ w2.
Proof.
  intros Hw1 Hw2 Hv Hne. unfold clean_reply. rewrite strip_fenced.
  fold (unfence (fenced lang w1 w2 t)). unfold fenced.
  assert (∃ c y', w1 ++ t ++ w2 = c :: y' ∧ c ≠ 106 ∧ c ≠ 96) as (c & y' & Hy & Hj & Hb).
  { destruct Hw1 as [|c w1 Hc _].
    - destruct t as [|c t]; [done|]. exists c, (t ++ w2).
      split; [done|]. by apply (lex_first_char c t).
    - exists c, (w1 ++ t ++ w2). split; [done|].
      destruct (is_json_ws_cases c Hc) as [->|[->|[->| ->]]]; done. }
  replace (w1 ++ t ++ w2 ++ fence) with ((w1 ++ t ++ w2) ++ fence)
    by by rewrite <- !app_assoc.
  rewrite (unfence_fenced lang _ c y') by done.
  by rewrite unfence_blank_l, unfence_blank_r.
Qed.

Lemma json_loads_not_nil t v : json_loads t = inr v → t ≠ [].
Proof. by intros H ->. Qed.

Lemma lex_clean_fenced (lang : bool) w1 w2 t :
  json_blank w1 → json_blank w2 → lex LTop t ≠ None → t ≠ [] →
  lex LTop (clean_reply (fenced lang w1 w2 t)) = lex LTop (unfence t).
Proof.
  intros Hw1 Hw2 Hv Hne. rewrite clean_reply_fenced by done.
  by rewrite lex_blank_l, lex_blank_r.
Qed.

Lemma json_loads_valid_lex t v : json_loads t = inr v → lex LTop t ≠ None.
Proof. unfold json_loads. by destruct (lex LTop t). Qed.
End gateway.

(* ===================================================================== *)
(** * Facts about the session                                             *)
(* ===================================================================== *)

Section labels.
Lemma uint_of_digits_of_uint d : uint_of_digits (digits_of_uint d) = Some d.
Proof. induction d; simpl; rewrite ?IHd; done. Qed.

Lemma digits_of_uint_no_space d : 32 ∉ digits_of_uint d.
Proof.
  induction d; simpl; rewrite ?not_elem_of_cons;
    [apply not_elem_of_nil | split; [done | assumption] ..].
Qed.

Lemma to_uint_not_nil n : N.to_uint n ≠ Nil.
Proof. destruct n; [done | apply DecimalPos.Unsigned.to_uint_nonnil]. Qed.

Lemma digits_of_uint_plain d :
  Forall (fun c => is_digit c = true ∧ isspace c = false) (digits_of_uint d).
Proof. induction d; simpl; constructor; done. Qed.

Lemma lstrip_plain (w : str) :
  Forall (fun c => isspace c = false) w → lstrip w = w.
Proof. destruct 1 as [|c w Hc _]; simpl; [done | by rewrite Hc]. Qed.

Lemma rstrip_plain (w : str) :
  Forall (fun c => isspace c = false) w → rstrip w = w.
Proof.
  destruct w as [|c w _] using rev_ind; [done|].
  intros [_ Hc]%Forall_app. apply Forall_cons in Hc as [Hc _].
  by rewrite rstrip_snoc, Hc.
Qed.

Lemma drop_underscores_plain (w : str) b :
  Forall (fun c => is_digit c = true) w → w ≠ [] →
  drop_underscores b w = Some w.
Proof.
  intros Hw. revert b. induction Hw as [|c w Hc Hw IH]; intros b Hne; [done|].
  cbn [drop_underscores].
  assert ((c =? 95) = false) as ->.
  { apply N.eqb_neq. intros ->. discriminate Hc. }
  rewrite Hc. destruct w as [|c' w]; [done|]. by rewrite IH.
Qed.

(** [int(str(n)) == n] *)
Lemma py_int_py_str n : py_int (py_str n) = Some (Z.of_N n).
Proof.
  unfold py_int, py_str.
  pose proof (digits_of_uint_plain (N.to_uint n)) as Hw.
  pose proof (to_uint_not_nil n) as Hn.
  pose proof (uint_of_digits_of_uint (N.to_uint n)) as Hd.
  pose proof (DecimalN.Unsigned.of_to n) as Hof.
  assert (digits_of_uint (N.to_uint n) ≠ []) as Hne by by destruct (N.to_uint n).
  revert Hw Hne Hd. generalize (digits_of_uint (N.to_uint n)). intros w Hw Hne Hd.
  unfold strip. rewrite lstrip_plain, rstrip_plain
    by (eapply Forall_impl; [exact Hw | by intros c [_ ?]]).
  assert (Forall (fun c => is_digit c = true) w) as Hdig
    by (eapply Forall_impl; [exact Hw | by intros c [? _]]).
  destruct w as [|c w]; [done|].
  assert ((c ≠ 43) ∧ (c ≠ 45)) as [H43 H45].
  { apply Forall_cons in Hdig as [Hc _]. split; intros ->; discriminate Hc. }
  assert (match c :: w with
          | 43 :: b => (false, b)
          | 45 :: b => (true, b)
          | _ => (false, c :: w)
          end = (false, c :: w)) as ->.
  { destruct c as [|p]; [done|].
    repeat (destruct p as [p|p|]; try done). }
  rewrite drop_underscores_plain, Hd, Hof by done. done.
Qed.

Lemma split_no_sep sep (w : str) : sep ∉ w → split sep w = [w].
Proof.
  induction w as [|c w IH]; intros H; [done|].
  apply not_elem_of_cons in H as [Hne H]. simpl.
  apply N.eqb_neq in Hne. rewrite N.eqb_sym in Hne. rewrite Hne.
  by rewrite IH.
Qed.

Lemma split_question_label i :
  split 32 (question_label i) !! 1%nat = Some (py_str (N.of_nat (i + 1))).
Proof.
  unfold question_label.
  generalize (digits_of_uint_no_space (N.to_uint (N.of_nat (i + 1)))).
  fold (py_str (N.of_nat (i + 1))). generalize (py_str (N.of_nat (i + 1))).
  intros w Hw. cbn. by rewrite split_no_sep.
Qed.

Lemma jump_to_question_label i s :
  jump_to_question (question_label i) s =
    Some {| state := quiz_started;
            questions := questions s;
            current_question := Z.of_nat i;
            user_answers := user_answers s |}.
Proof.
  unfold jump_to_question.
  rewrite split_question_label, py_int_py_str.
  do 3 f_equal. lia.
Qed.

Lemma elem_of_jumper_options (w : str) qs :
  w ∈ jumper_options qs ↔ ∃ i, (i < length qs)%nat ∧ w = question_label i.
Proof.
  unfold jumper_options. rewrite list_elem_of_In, in_map_iff.
  split.
  - intros [i [<- Hi%in_seq]]. exists i. split; [lia | done].
  - intros [i [Hi ->]]. exists i. split; [done | apply in_seq; lia].
Qed.
End labels.

Section indexing.
Context {A : Type}.
Implicit Types (l : list A).

Lemma py_index_nat l (i : nat) : py_index l (Z.of_nat i) = l !! i.
Proof.
  unfold py_index.
  destruct (Z.leb_spec 0 (Z.of_nat i)); [|lia].
  by rewrite Nat2Z.id.
Qed.

Lemma py_index_in_range l (i : Z) :
  (0 ≤ i < Z.of_nat (length l))%Z → is_Some (py_index l i).
Proof.
  intros H. rewrite <- (Z2Nat.id i) by lia. rewrite py_index_nat.
  apply lookup_lt_is_Some. lia.
Qed.
End indexing.

Section scoring.
Implicit Types (s : session) (qs pre rest : list question).

Lemma list_sum_ones {A} (l : list A) :
  list_sum (List.map (fun _ => 1%nat) l) = length l.
Proof. induction l as [|x l IH]; simpl; [done | by rewrite IH]. Qed.

Lemma get_equals_spec (o : option str) (a : str) :
  get_equals o a = true ↔ o = Some a.
Proof.
  destruct o as [x|]; simpl; [|done].
  unfold str_eqb. rewrite bool_decide_eq_true. split; congruence.
Qed.

(** [enumerate] pairs every record with its position. *)
Lemma score_enumerate (answers : gmap Z str) pre rest :
  length (List.filter
            (fun iq => get_equals (answers !! fst iq) (q_answer (snd iq)))
            (enumerate_from (Z.of_nat (length pre)) rest)) =
  length (List.filter
            (fun i => match (pre ++ rest) !! i, answers !! Z.of_nat i with
                      | Some q, Some a => bool_decide (a = q_answer q)
                      | _, _ => false
                      end)
            (seq (length pre) (length rest))).
Proof.
  revert pre. induction rest as [|q rest IH]; intros pre; [done|].
  cbn [enumerate_from List.filter length seq fst snd].
  rewrite list_lookup_middle by done.
  replace (Z.of_nat (length pre) + 1)%Z
    with (Z.of_nat (length (pre ++ [q]))) by (rewrite length_app; simpl; lia).
  replace (S (length pre)) with (length (pre ++ [q]))
    by (rewrite length_app; simpl; lia).
  specialize (IH (pre ++ [q])). rewrite <- app_assoc in IH. simpl in IH.
  destruct (answers !! Z.of_nat (length pre)) as [a|]; simpl.
  - unfold str_eqb. destruct (bool_decide (a = q_answer q)); simpl; by rewrite IH.
  - by rewrite IH.
Qed.

Lemma score_count_correct s : score s = count_correct s.
Proof.
  unfold score, count_correct, enumerate. rewrite list_sum_ones.
  apply (score_enumerate (user_answers s) [] (questions s)).
Qed.


End scoring.

Section preselection.
Implicit Types (opts : list str) (a : str).

Lemma list_index_lookup a opts k :
  list_index a opts = Some k → opts !! k = Some a.
Proof.
  revert k. induction opts as [|y opts IH]; intros k; simpl; [done|].
  unfold str_eqb. case_bool_decide as Hy.
  - intros [= <-]. by subst.
  - destruct (list_index a opts) as [j|]; simpl; [|done].
    intros [= <-]. by apply IH.
Qed.

Lemma list_index_elem a opts : a ∈ opts → is_Some (list_index a opts).
Proof.
  induction 1 as [|y b opts Hin IH]; simpl; unfold str_eqb.
  - rewrite bool_decide_eq_true_2 by done. eauto.
  - case_bool_decide; [eauto|]. destruct IH as [k ->]. simpl. eauto.
Qed.

Lemma existsb_str_eqb a opts : a ∈ opts → existsb (str_eqb a) opts = true.
Proof.
  intros H. apply existsb_exists. exists a. split.
  - by apply list_elem_of_In.
  - unfold str_eqb. by apply bool_decide_eq_true.
Qed.

(** A stored answer that the form offers is the option shown selected. *)
Lemma previous_answer_preselected a opts :
  a ∈ opts → opts !! previous_answer_index opts (Some a) = Some a.
Proof.
  intros H. unfold previous_answer_index.
  rewrite existsb_str_eqb by done.
  destruct (list_index_elem a opts H) as [k Hk]. rewrite Hk. simpl.
  by apply list_index_lookup.
Qed.

Lemma elem_of_valid_options (opt : str) q :
  opt ∈ valid_options q ↔ opt ∈ q_options q ∧ opt ≠ [].
Proof.
  unfold valid_options. rewrite !list_elem_of_In, filter_In.
  unfold str_eqb. rewrite negb_true_iff, bool_decide_eq_false. done.
Qed.

Lemma valid_options_sublist q : sublist (valid_options q) (q_options q).
Proof.
  unfold valid_options. induction (q_options q) as [|o l IH]; simpl; [done|].
  destruct (negb (str_eqb o [])); [by apply sublist_skip | by apply sublist_cons].
Qed.
End preselection.

Section transitions.
Implicit Types (s : session) (a : action).

Lemma index_ok_lookup s :
  index_ok s → is_Some (py_index (questions s) (current_question s)).
Proof. apply py_index_in_range. Qed.

Lemma main_check_answer s user_choice :
  state s = quiz_started → index_ok s →
  main (CheckAnswer user_choice) s = Some (submit_answer user_choice s).
Proof.
  intros Hst [q Hq]%index_ok_lookup. unfold main. by rewrite Hst, Hq.
Qed.

Lemma main_next_button s :
  state s = show_feedback → index_ok s →
  main NextButton s = Some (next_question s).
Proof.
  intros Hst [q Hq]%index_ok_lookup. unfold main. by rewrite Hst, Hq.
Qed.

Lemma main_jump s i :
  state s = quiz_started ∨ state s = show_feedback →
  (i < length (questions s))%nat →
  main (Jump (question_label i)) s =
    Some {| state := quiz_started;
            questions := questions s;
            current_question := Z.of_nat i;
            user_answers := user_answers s |}.
Proof.
  intros Hst Hi. unfold main.
  rewrite jump_to_question_label. cbn [questions current_question state].
  rewrite py_index_nat.
  destruct (lookup_lt_is_Some_2 (questions s) i Hi) as [q ->].
  by destruct Hst as [-> | ->].
Qed.

Lemma next_question_index_ok s : index_ok s → index_ok (next_question s).
Proof.
  unfold index_ok, next_question. intros H.
  destruct (Z.eqb_spec (current_question s + 1)
              (Z.of_nat (length (questions s)))); simpl; lia.
Qed.

(** Every operation of a quiz keeps the index within the store, and
    never raises. *)
Lemma main_index_ok s a :
  index_ok s → quiz_operation a s →
  ∃ s', main a s = Some s' ∧ index_ok s' ∧ questions s' = questions s.
Proof.
  intros Hok Hop.
  destruct (index_ok_lookup s Hok) as [q Hq].
  destruct a as [| | w | c | |]; try done.
  - apply elem_of_jumper_options in Hop as [i [Hi ->]].
    destruct (state s) eqn:Hst.
    + exists s. unfold main. by rewrite Hst.
    + rewrite main_jump by auto. eexists. split; [done|].
      split; [unfold index_ok; simpl; lia | done].
    + rewrite main_jump by auto. eexists. split; [done|].
      split; [unfold index_ok; simpl; lia | done].
    + exists s. unfold main. by rewrite Hst.
  - destruct (state s) eqn:Hst.
    + exists s. unfold main. by rewrite Hst.
    + rewrite main_check_answer by done. eexists. split; [done|]. done.
    + exists s. unfold main. by rewrite Hst, Hq.
    + exists s. unfold main. by rewrite Hst.
  - destruct (state s) eqn:Hst.
    + exists s. unfold main. by rewrite Hst.
    + exists s. unfold main. by rewrite Hst, Hq.
    + rewrite main_next_button by done. eexists. split; [done|].
      split; [by apply next_question_index_ok|].
      unfold next_question. by destruct (negb _).
    + exists s. unfold main. by rewrite Hst.
Qed.

(** The first upload that finds questions starts the quiz on index 0. *)
Lemma main_upload_index_ok sec svc s' :
  main (Upload sec svc) new_session = Some s' →
  questions s' ≠ [] →
  state s' = quiz_started ∧ index_ok s'.
Proof.
  unfold main. cbn [state new_session].
  destruct (as_store _) as [[|q qs]|]; [| |done].
  - by intros [= <-].
  - intros [= <-] _. split; [done|]. unfold index_ok. simpl. lia.
Qed.

(** What a run does after an operation of a quiz. *)
Lemma main_quiz_cases s a s' :
  index_ok s → quiz_operation a s → main a s = Some s' →
  s' = s
  ∨ (∃ c, a = CheckAnswer c ∧ state s = quiz_started ∧ s' = submit_answer c s)
  ∨ (a = NextButton ∧ state s = show_feedback ∧ s' = next_question s)
  ∨ (∃ i : nat, a = Jump (question_label i)
       ∧ (i < length (questions s))%nat
       ∧ s' = {| state := quiz_started;
                 questions := questions s;
                 current_question := Z.of_nat i;
                 user_answers := user_answers s |}).
Proof.
  intros Hok Hop.
  destruct (index_ok_lookup s Hok) as [q Hq].
  destruct a as [| | w | c | |]; try done.
  - apply elem_of_jumper_options in Hop as [i [Hi ->]].
    destruct (state s) eqn:Hst.
    + unfold main. rewrite Hst. intros [= <-]. by left.
    + rewrite main_jump by auto. intros [= <-]. right. right. right. eauto.
    + rewrite main_jump by auto. intros [= <-]. right. right. right. eauto.
    + unfold main. rewrite Hst. intros [= <-]. by left.
  - destruct (state s) eqn:Hst.
    + unfold main. rewrite Hst. intros [= <-]. by left.
    + rewrite main_check_answer by done. intros [= <-]. right. left. eauto.
    + unfold main. rewrite Hst, Hq. intros [= <-]. by left.
    + unfold main. rewrite Hst. intros [= <-]. by left.
  - destruct (state s) eqn:Hst.
    + unfold main. rewrite Hst. intros [= <-]. by left.
    + unfold main. rewrite Hst, Hq. intros [= <-]. by left.
    + rewrite main_next_button by done. intros [= <-]. right. right. left. eauto.
    + unfold main. rewrite Hst. intros [= <-]. by left.
Qed.

(** The feedback is only ever shown for an answer that was stored. *)
Lemma main_feedback_has_answer s a s' :
  index_ok s → feedback_has_answer s → quiz_operation a s →
  main a s = Some s' → feedback_has_answer s'.
Proof.
  intros Hok Hinv Hop Hmain.
  destruct (main_quiz_cases s a s' Hok Hop Hmain)
    as [-> | [(c & -> & Hst & ->) | [(-> & Hst & ->) | (i & -> & Hi & ->)]]];
    unfold feedback_has_answer in *.
  - done.
  - intros _. cbn [submit_answer user_answers current_question].
    rewrite lookup_insert_eq. eauto.
  - unfold next_question. by destruct (negb _).
  - done.
Qed.

(** Answers chosen on the radio are choices of their question. *)
Lemma main_ledger_offered s a s' :
  index_ok s → ledger_offered s → quiz_operation a s → radio_choice a s →
  main a s = Some s' → ledger_offered s'.
Proof.
  intros Hok Hinv Hop Hradio Hmain.
  destruct (main_quiz_cases s a s' Hok Hop Hmain)
    as [-> | [(c & -> & Hst & ->) | [(-> & Hst & ->) | (i & -> & Hi & ->)]]];
    unfold ledger_offered in *.
  - done.
  - destruct Hradio as (q & Hq & Hc). intros k x.
    cbn [submit_answer user_answers questions].
    destruct (decide (current_question s = k)) as [<-|Hne].
    + rewrite lookup_insert_eq. intros [= <-]. eauto.
    + rewrite lookup_insert_ne by done. apply Hinv.
  - unfold next_question. by destruct (negb _).
  - done.
Qed.

(** The invariants of the sessions of a quiz. *)
Lemma reachable_invariants s :
  reachable s →
  index_ok s ∧ feedback_has_answer s ∧ ledger_offered s.
Proof.
  induction 1 as [sec svc s Hup Hne | s a s' _ (Hok & Hfb & Hled) Hop Hradio Hmain].
  - destruct (main_upload_index_ok sec svc s Hup Hne) as [Hst Hok].
    split; [done|]. split.
    + unfold feedback_has_answer. by rewrite Hst.
    + unfold main in Hup. cbn [state new_session] in Hup.
      destruct (as_store _); [|done]. injection Hup as <-.
      intros i x. cbn [user_answers new_session]. by rewrite lookup_empty.
  - destruct (main_index_ok s a Hok Hop) as (s'' & Hmain' & Hok' & _).
    rewrite Hmain in Hmain'. injection Hmain' as <-.
    split; [done|]. split.
    + by apply (main_feedback_has_answer s a).
    + by apply (main_ledger_offered s a).
Qed.

End transitions.

(* ===================================================================== *)
(** * The definitions at work                                             *)
(* ===================================================================== *)

Section examples.

Example str_of_abc : str_of "abc" = [97; 98; 99].
Proof. reflexivity. Qed.

Example strip_spaces : strip (str_of "  a b  ") = str_of "a b".
Proof. reflexivity. Qed.

(** occurrences are replaced from the left and do not overlap *)
Example replace_left_to_right :
  replace (str_of "aa") (str_of "x") (str_of "aaa-aaaa") = str_of "xa-xx".
Proof. reflexivity. Qed.

Example split_label :
  split 32 (str_of "Question 12") = [str_of "Question"; str_of "12"].
Proof. reflexivity. Qed.

Example py_int_label : py_int (str_of "12") = Some 12%Z.
Proof. reflexivity. Qed.

Example py_int_sign_and_spaces : py_int (str_of " -1_000 ") = Some (-1000)%Z.
Proof. reflexivity. Qed.

Example py_int_not_a_number : py_int (str_of "1x") = None.
Proof. reflexivity. Qed.

Example json_loads_nested :
  json_loads (json_of " [ {'a': [1, -2.5e3, true, null], 'a': 'x\n'}, [] ] ")
  = inr (PList [ PDict [ (str_of "a", PStr [120; 10]) ]; PList [] ]).
Proof. reflexivity. Qed.

Example json_loads_surrogates :
  json_loads (json_of "'\ud83d\ude00\u00e9'") = inr (PStr [128512; 233]).
Proof. reflexivity. Qed.

Example json_loads_trailing_comma :
  json_loads (json_of "[1,]") = inl JSONDecodeError.
Proof. reflexivity. Qed.

Example json_loads_extra_data :
  json_loads (json_of "[1] 2") = inl JSONDecodeError.
Proof. reflexivity. Qed.

Example json_loads_leading_zero :
  json_loads (json_of "[01]") = inl JSONDecodeError.
Proof. reflexivity. Qed.

(** a reply in a fenced block, on lines of its own or on one line *)
Example fenced_lines :
  fenced true [10] [10] (str_of "[]") = [96; 96; 96; 106; 115; 111; 110; 10; 91; 93; 10; 96; 96; 96]
  ∧ fenced false [] [] (str_of "[]") = str_of "```[]```".
Proof. by vm_compute. Qed.

Example gateway_fenced_one_line :
  fst (parse_quiz_file_with_ai (Secrets (Some sample_key))
         (Reply (fenced false [] [] reply_arith)))
  = fst (parse_quiz_file_with_ai (Secrets (Some sample_key)) (Reply reply_arith)).
Proof. by vm_compute. Qed.

Example gateway_fenced_reply :
  parse_quiz_file_with_ai (Secrets (Some sample_key)) (Reply (fenced true [10] [10] reply_arith))
  = (PList [ PDict [ (str_of "question", PStr (str_of "2+2?"));
                     (str_of "options", PList [PStr (str_of "3"); PStr (str_of "4")]);
                     (str_of "answer", PStr (str_of "4")) ] ],
     [info_analyzing; success_found 1]).
Proof. by vm_compute. Qed.

(** backticks inside a string of the payload are deleted as well *)
Example gateway_backticks_in_payload :
  fst (parse_quiz_file_with_ai (Secrets (Some sample_key))
         (Reply (json_of "[{'question':'What prints ```x```?','options':['x','y'],'answer':'x'}]")))
  = PList [ PDict [ (str_of "question", PStr (str_of "What prints x?"));
                    (str_of "options", PList [PStr (str_of "x"); PStr (str_of "y")]);
                    (str_of "answer", PStr (str_of "x")) ] ].
Proof. by vm_compute. Qed.

(** a reply that is a number has no [len]: the gateway reports the error *)
Example gateway_reply_without_len :
  parse_quiz_file_with_ai (Secrets (Some sample_key)) (Reply (str_of "42"))
  = (PList [], [info_analyzing; error_analyzing; error_details TypeError;
                code_raw (str_of "42")]).
Proof. by vm_compute. Qed.

Example gateway_without_key :
  parse_quiz_file_with_ai (Secrets None) (Reply reply_arith)
  = (PList [], [error_no_api_key; info_create_secrets]).
Proof. reflexivity. Qed.

(** The fenced reply is only the same for a text the decoder accepts: a
    form feed before the array is stripped from the bare reply, and is
    an error inside the fences. *)
Example fenced_text_must_be_valid :
  fst (parse_quiz_file_with_ai (Secrets (Some sample_key)) (Reply (12 :: reply_arith)))
    = fst (parse_quiz_file_with_ai (Secrets (Some sample_key)) (Reply reply_arith))
  ∧ fst (parse_quiz_file_with_ai (Secrets (Some sample_key))
           (Reply (fenced true [10] [10] (12 :: reply_arith)))) = PList [].
Proof. by vm_compute. Qed.

(** The scenarios of the specification on the store with the one record
    [2+2?]. *)
Example scenario_right_answer :
  (s0 ← main (Upload (Secrets (Some sample_key)) (Reply reply_arith)) new_session;
   s1 ← main (CheckAnswer (str_of "4")) s0;
   s2 ← main NextButton s1;
   Some (state s0, state s1, feedback s1, state s2, final_score s2))
  = Some (quiz_started, show_feedback, Some true, finished, Some 1%nat).
Proof. by vm_compute. Qed.

Example scenario_wrong_answer :
  (s0 ← main (Upload (Secrets (Some sample_key)) (Reply reply_arith)) new_session;
   s1 ← main (CheckAnswer (str_of "3")) s0;
   s2 ← main NextButton s1;
   Some (state s1, feedback s1, state s2, final_score s2))
  = Some (show_feedback, Some false, finished, Some 0%nat).
Proof. by vm_compute. Qed.

Example scenario_jump_back :
  (s1 ← run [CheckAnswer (str_of "4"); NextButton; Jump (question_label 0)]
            (session_at quiz_started 0 ∅);
   Some (state s1, current_question s1, preselected s1))
  = Some (quiz_started, 0%Z, Some (str_of "4")).
Proof. by vm_compute. Qed.

(** a label the selectbox does not offer leaves the store's range *)
Example jump_outside_raises :
  main (Jump (str_of "Question 3")) (session_at quiz_started 0 ∅) = None.
Proof. by vm_compute. Qed.

Example valid_options_noise : valid_options q_noise = [str_of "A"; str_of "B"].
Proof. reflexivity. Qed.

End examples.

(* ===================================================================== *)
(** * The properties of the specification                                 *)
(* ===================================================================== *)

Section claims.
Implicit Types (s : session) (a : action) (t text key : str).

(** ** Extraction gateway *)

(** C1, as the specification states it, fails: the reply
    [[{"question":"Q","options":["A","B"],"answer":"C"}]] yields a store
    with that one record, whose answer is none of its options; the store
    is not empty. *)
Lemma mismatched_record_enters_store :
  fst (parse_quiz_file_with_ai (Secrets (Some sample_key)) (Reply reply_mismatch))
    = PList [record_mismatch]
  ∧ answer_in_options record_mismatch = false
  ∧ as_store (fst (parse_quiz_file_with_ai (Secrets (Some sample_key)) (Reply reply_mismatch)))
    = Some [ {| q_question := str_of "Q";
                q_options := [str_of "A"; str_of "B"];
                q_answer := str_of "C" |} ].
Proof. by vm_compute. Qed.

(** C1 (amended): the gateway validates no record.  Whenever the cleaned
    reply decodes to a JSON array, the store is that array: every
    element enters it, in order, whether or not its answer is one of its
    options, and the count displayed is the length of the array. *)
Theorem gateway_stores_decoded_array key text l :
  key ≠ [] →
  json_loads (clean_reply text) = inr (PList l) →
  parse_quiz_file_with_ai (Secrets (Some key)) (Reply text)
    = (PList l, [info_analyzing; success_found (length l)]).
Proof.
  intros Hkey Hl. unfold parse_quiz_file_with_ai.
  destruct key as [|k key]; [done|]. cbn [configure_ai negb].
  by rewrite Hl.
Qed.

(** The mismatched record: the array of the reply is the store. *)
Lemma gateway_stores_decoded_array_witness :
  parse_quiz_file_with_ai (Secrets (Some sample_key)) (Reply reply_mismatch)
    = (PList [record_mismatch], [info_analyzing; success_found 1]).
Proof.
  apply (gateway_stores_decoded_array sample_key reply_mismatch [record_mismatch]).
  - discriminate.
  - vm_compute. reflexivity.
Defined.

(** C5, as the specification states it, fails: what the gateway returns
    after a failure is the empty list, the very value it returns when
    the reply is the empty array, and [main] treats both alike. *)
Lemma failure_returns_empty_list :
  fst (parse_quiz_file_with_ai (Secrets (Some sample_key)) (Unreachable (str_of "timeout")))
    = fst (parse_quiz_file_with_ai (Secrets (Some sample_key)) (Reply (str_of "[]")))
  ∧ fst (parse_quiz_file_with_ai (Secrets (Some sample_key)) (Reply (str_of "no json")))
    = fst (parse_quiz_file_with_ai (Secrets (Some sample_key)) (Reply (str_of "[]")))
  ∧ main (Upload (Secrets (Some sample_key)) (Reply (str_of "no json"))) new_session
    = main (Upload (Secrets (Some sample_key)) (Reply (str_of "[]"))) new_session.
Proof. by vm_compute. Qed.

(** C7: for a text [t] that is a valid JSON array, the reply made of [t]
    inside a fenced code block (opening fence with or without the [json]
    tag, any whitespace or none between the fences and the text) gives
    the same store as the reply [t]. *)
Theorem fenced_reply_same_store sec (lang : bool) w1 w2 t l :
  json_blank w1 → json_blank w2 →
  json_loads t = inr (PList l) →
  fst (parse_quiz_file_with_ai sec (Reply (fenced lang w1 w2 t)))
  = fst (parse_quiz_file_with_ai sec (Reply t)).
Proof.
  intros Hw1 Hw2 Ht.
  pose proof (json_loads_valid_lex t _ Ht) as Hv.
  pose proof (json_loads_not_nil t _ Ht) as Hne.
  assert (json_loads (clean_reply (fenced lang w1 w2 t))
          = json_loads (clean_reply t)) as Heq.
  { apply json_loads_lex. by rewrite lex_clean_fenced, lex_clean_valid. }
  unfold parse_quiz_file_with_ai. destruct (configure_ai sec) as [[] msgs]; [|done].
  cbn [negb]. rewrite Heq.
  destruct (json_loads (clean_reply t)) as [e|v]; [done|].
  by destruct (py_len v).
Qed.

(** The one-record reply between [```json] and [```], on lines of its own. *)
Lemma fenced_reply_same_store_witness :
  fst (parse_quiz_file_with_ai (Secrets (Some sample_key))
         (Reply (fenced true [10] [10] reply_arith)))
  = fst (parse_quiz_file_with_ai (Secrets (Some sample_key)) (Reply reply_arith)).
Proof.
  apply (fenced_reply_same_store (Secrets (Some sample_key)) true [10] [10] reply_arith
           [PDict [ (str_of "question", PStr (str_of "2+2?"));
                    (str_of "options", PList [PStr (str_of "3"); PStr (str_of "4")]);
                    (str_of "answer", PStr (str_of "4")) ]]).
  - repeat constructor.
  - repeat constructor.
  - vm_compute. reflexivity.
Defined.

End claims.

Section session_claims.
Implicit Types (s : session) (a : action).

(** ** Quiz session *)

(** On a store of question records, whose answers are strings, the
    score of the [finished] phase is the number of indices whose ledger
    entry equals the record's answer, and an index without entry is not
    counted. *)
Theorem final_score_counts_correct s :
  state s = finished →
  final_score s = Some (count_correct s)
  ∧ (∀ i : nat,
       answered_correctly s i = true ↔
       ∃ q, questions s !! i = Some q
            ∧ user_answers s !! Z.of_nat i = Some (q_answer q))
  ∧ (∀ i : nat,
       user_answers s !! Z.of_nat i = None → answered_correctly s i = false).
Proof.
  intros Hst. unfold final_score. rewrite Hst, score_count_correct.
  split; [done|]. split.
  - intros i. unfold answered_correctly.
    destruct (questions s !! i) as [q|].
    + destruct (user_answers s !! Z.of_nat i) as [x|].
      * rewrite bool_decide_eq_true. split.
        -- intros ->. by exists q.
        -- intros (q' & Hq & Hx). congruence.
      * split; [done|]. intros (q' & _ & Hx). done.
    + split; [done|]. intros (q' & Hq & _). done.
  - intros i Hi. unfold answered_correctly. rewrite Hi.
    by destruct (questions s !! i).
Qed.

(** Two questions, the first answered correctly, the second not at all. *)
Lemma final_score_counts_correct_witness :
  final_score (session_at finished 1 {[ 0%Z := str_of "4" ]}) = Some 1%nat
  ∧ answered_correctly (session_at finished 1 {[ 0%Z := str_of "4" ]}) 1 = false.
Proof.
  destruct (final_score_counts_correct
              (session_at finished 1 {[ 0%Z := str_of "4" ]}))
    as (Hscore & _ & Hnone).
  - reflexivity.
  - split; [exact Hscore | apply Hnone; reflexivity].
Defined.

(** C3: the form's submit, the button and the selectbox keep
    [0 <= current_question < len(questions)]: none of them raises, none
    changes the store, the index they leave is that of a question of the
    store, and the button moves it by one at most. *)
Theorem operations_keep_index_in_bounds s a :
  questions s ≠ [] → index_ok s → quiz_operation a s →
  ∃ s', main a s = Some s'
        ∧ index_ok s'
        ∧ questions s' = questions s
        ∧ is_Some (py_index (questions s) (current_question s'))
        ∧ (a = NextButton →
           current_question s' = current_question s
           ∨ (current_question s' = current_question s + 1)%Z).
Proof.
  intros _ Hok Hop.
  destruct (main_index_ok s a Hok Hop) as (s' & Hmain & Hok' & Hqs).
  exists s'. split; [done|]. split; [done|]. split; [done|]. split.
  - rewrite <- Hqs. by apply index_ok_lookup.
  - intros ->.
    destruct (main_quiz_cases s NextButton s' Hok Hop Hmain)
      as [-> | [(c & Hc & _) | [(_ & Hst & ->) | (i & Hi & _)]]]; try done.
    + by left.
    + unfold next_question. destruct (negb _); simpl; [by right | by left].
Qed.

(** The button on the last of two questions. *)
Lemma operations_keep_index_in_bounds_witness :
  ∃ s', main NextButton (session_at show_feedback 1 ∅) = Some s'
        ∧ index_ok s'
        ∧ questions s' = [q_arith; q_noise]
        ∧ is_Some (py_index [q_arith; q_noise] (current_question s'))
        ∧ (NextButton = NextButton →
           current_question s' = 1%Z ∨ current_question s' = 2%Z).
Proof.
  apply (operations_keep_index_in_bounds (session_at show_feedback 1 ∅) NextButton).
  - discriminate.
  - unfold index_ok. simpl. lia.
  - exact I.
Defined.

(** C4: in [show_feedback] the verdict is the equality of the stored
    answer with the record's answer; the button then leads to
    [quiz_started] on the next index when there is one, and from the
    last question to [finished] with the index unchanged. *)
Theorem next_button_from_feedback s (x : str) :
  state s = show_feedback → index_ok s →
  user_answers s !! current_question s = Some x →
  ∃ q s',
    py_index (questions s) (current_question s) = Some q
    ∧ feedback s = Some (bool_decide (x = q_answer q))
    ∧ main NextButton s = Some s'
    ∧ questions s' = questions s
    ∧ user_answers s' = user_answers s
    ∧ index_ok s'
    ∧ ((current_question s + 1 < Z.of_nat (length (questions s)))%Z →
       state s' = quiz_started
       ∧ current_question s' = (current_question s + 1)%Z)
    ∧ ((current_question s + 1 = Z.of_nat (length (questions s)))%Z →
       state s' = finished ∧ current_question s' = current_question s).
Proof.
  intros Hst Hok Hx. destruct (index_ok_lookup s Hok) as [q Hq].
  exists q, (next_question s).
  split; [done|]. split.
  { unfold feedback. by rewrite Hq, Hx. }
  split; [by apply main_next_button|].
  pose proof (next_question_index_ok s Hok) as Hok'.
  unfold next_question in *.
  destruct (Z.eqb_spec (current_question s + 1)
              (Z.of_nat (length (questions s)))) as [Heq|Hne];
    cbn [negb state questions current_question user_answers] in *;
    repeat split; try done; intros; unfold index_ok in *; simpl in *; lia.
Qed.

(** A wrong answer on the last of two questions. *)
Lemma next_button_from_feedback_witness :
  ∃ q s',
    py_index [q_arith; q_noise] 1 = Some q
    ∧ feedback (session_at show_feedback 1 {[ 1%Z := str_of "A" ]})
      = Some (bool_decide (str_of "A" = q_answer q))
    ∧ main NextButton (session_at show_feedback 1 {[ 1%Z := str_of "A" ]}) = Some s'
    ∧ state s' = finished ∧ current_question s' = 1%Z.
Proof.
  destruct (next_button_from_feedback
              (session_at show_feedback 1 {[ 1%Z := str_of "A" ]}) (str_of "A"))
    as (q & s' & Hq & Hf & Hm & _ & _ & _ & _ & Hlast).
  - reflexivity.
  - unfold index_ok. simpl. lia.
  - reflexivity.
  - exists q, s'. destruct Hlast as [H1 H2]; [reflexivity|]. auto.
Defined.

(** C6: choosing the label of a valid index in the selectbox leads to
    [quiz_started] on that index with the ledger untouched; a stored
    answer that the form offers is shown selected; choosing the same
    label again changes nothing. *)
Theorem jump_keeps_ledger s (i : nat) :
  state s = quiz_started ∨ state s = show_feedback →
  (i < length (questions s))%nat →
  ∃ s',
    main (Jump (question_label i)) s = Some s'
    ∧ state s' = quiz_started
    ∧ current_question s' = Z.of_nat i
    ∧ user_answers s' = user_answers s
    ∧ questions s' = questions s
    ∧ (∀ q (x : str),
         questions s !! i = Some q →
         user_answers s !! Z.of_nat i = Some x →
         x ∈ valid_options q →
         preselected s' = Some x)
    ∧ main (Jump (question_label i)) s' = Some s'.
Proof.
  intros Hst Hi. eexists. split; [by apply main_jump|].
  cbn [state current_question user_answers questions].
  repeat split; try done.
  - intros q x Hq Hx Hin. unfold preselected.
    cbn [questions current_question user_answers].
    rewrite py_index_nat, Hq, Hx. by apply previous_answer_preselected.
  - by rewrite main_jump; [|left|].
Qed.

(** Back to the first question, answered before with [3]. *)
Lemma jump_keeps_ledger_witness :
  ∃ s',
    main (Jump (question_label 0)) (session_at show_feedback 1 {[ 0%Z := str_of "3" ]})
      = Some s'
    ∧ state s' = quiz_started
    ∧ current_question s' = 0%Z
    ∧ user_answers s' = {[ 0%Z := str_of "3" ]}
    ∧ preselected s' = Some (str_of "3")
    ∧ main (Jump (question_label 0)) s' = Some s'.
Proof.
  destruct (jump_keeps_ledger
              (session_at show_feedback 1 {[ 0%Z := str_of "3" ]}) 0)
    as (s' & Hm & Hst & Hcur & Hans & _ & Hpre & Hagain).
  - right. reflexivity.
  - simpl. lia.
  - exists s'. repeat split; try assumption.
    apply (Hpre q_arith (str_of "3")); [reflexivity | reflexivity |].
    apply list_elem_of_In. simpl. auto.
Defined.

Lemma py_index_map {A B} (f : A → B) (l : list A) (i : Z) :
  py_index (List.map f l) i = f <$> py_index l i.
Proof.
  unfold py_index. rewrite length_map.
  repeat case_match; try done; by rewrite <- list_lookup_fmap.
Qed.

Lemma enumerate_from_map {A B} (f : A → B) (l : list A) (k : Z) :
  enumerate_from k (List.map f l)
  = List.map (fun iq => (fst iq, f (snd iq))) (enumerate_from k l).
Proof.
  revert k. induction l as [|x l IH]; intros k; simpl; [done|]. by rewrite IH.
Qed.

(** C8: the choice list is the options without the empty strings, in
    their order; the verdict on an answer compares two strings and never
    looks at the options, so that neither the feedback nor the score
    changes when the records carry the choice list instead. *)
Theorem empty_options_filtered q :
  (∀ opt : str, opt ∈ valid_options q ↔ opt ∈ q_options q ∧ opt ≠ [])
  ∧ sublist (valid_options q) (q_options q)
  ∧ (∀ last_answer : str,
       is_correct last_answer q = bool_decide (last_answer = q_answer q)
       ∧ is_correct last_answer (with_valid_options q) = is_correct last_answer q)
  ∧ (∀ s, feedback (offer_valid_options s) = feedback s
          ∧ score (offer_valid_options s) = score s).
Proof.
  split; [intros opt; apply elem_of_valid_options|].
  split; [apply valid_options_sublist|].
  split; [done|].
  intros s. split.
  - unfold feedback, offer_valid_options.
    cbn [questions current_question user_answers].
    rewrite py_index_map.
    by destruct (py_index (questions s) (current_question s)).
  - unfold score, offer_valid_options, enumerate.
    cbn [questions user_answers].
    rewrite enumerate_from_map, !list_sum_ones.
    generalize (enumerate_from 0 (questions s)). intros l.
    induction l as [|[i x] l IH]; [done|].
    cbn [List.map List.filter fst snd with_valid_options q_answer].
    destruct (get_equals _ _); simpl; by rewrite IH.
Qed.


End session_claims.

(* ===================================================================== *)
(** * Further properties of the gateway                                   *)
(* ===================================================================== *)

Section gateway_properties.
Implicit Types (s t text w : str) (c : N) (sec : secrets) (svc : service).

Lemma configure_ai_usable sec :
  fst (configure_ai sec) = true ↔ ∃ key, key ≠ [] ∧ sec = Secrets (Some key).
Proof.
  split.
  - destruct sec as [cause|[[|k key]|]]; simpl; try done.
    intros _. by exists (k :: key).
  - intros (key & Hne & ->). by destruct key.
Qed.

(** X1: Without a usable key -- the secrets cannot be read, hold no
    [GOOGLE_API_KEY], or hold an empty one -- the gateway returns the
    empty list whatever the service would answer, and displays the
    configuration error alone: the analysis is never announced. *)
Theorem gateway_without_usable_key sec svc :
  fst (configure_ai sec) = false →
  parse_quiz_file_with_ai sec svc = (PList [], snd (configure_ai sec))
  ∧ snd (configure_ai sec) ≠ []
  ∧ ¬ In info_analyzing (snd (configure_ai sec))
  ∧ ∀ key, sec = Secrets (Some key) → key = [].
Proof.
  intros Hcfg. unfold parse_quiz_file_with_ai.
  destruct sec as [cause|[[|k key]|]]; cbn [configure_ai fst snd negb] in *;
    try discriminate;
    (split; [done|]); (split; [done|]);
    (split; [simpl; intuition discriminate|]);
    by intros key' [= <-].
Qed.

(** an empty key *)
Lemma gateway_without_usable_key_witness :
  parse_quiz_file_with_ai (Secrets (Some [])) (Reply reply_arith)
    = (PList [], [error_no_api_key; info_create_secrets]).
Proof.
  destruct (gateway_without_usable_key (Secrets (Some [])) (Reply reply_arith))
    as [H _].
  - reflexivity.
  - exact H.
Defined.

Lemma gateway_result_shape sec svc :
  ∃ n, py_len (fst (parse_quiz_file_with_ai sec svc)) = Some n
       ∧ (n ≠ 0%nat →
          snd (parse_quiz_file_with_ai sec svc) = [info_analyzing; success_found n])
       ∧ ∀ k, In (success_found k) (snd (parse_quiz_file_with_ai sec svc)) → k = n.
Proof.
  unfold parse_quiz_file_with_ai.
  destruct sec as [cause|[[|k0 key]|]]; cbn [configure_ai negb];
    try (exists 0%nat; split; [done|]; split; [done|];
         intros k; simpl; intuition discriminate).
  destruct svc as [cause|text].
  { exists 0%nat. split; [done|]. split; [done|].
    intros k; simpl; intuition discriminate. }
  destruct (json_loads (clean_reply text)) as [e|v].
  { exists 0%nat. split; [done|]. split; [done|].
    intros k; simpl; intuition discriminate. }
  destruct (py_len v) as [n|] eqn:Hn.
  - exists n. cbn [fst snd]. split; [done|]. split; [done|].
    intros k; simpl; intuition congruence.
  - exists 0%nat. split; [done|]. split; [done|].
    intros k; simpl; intuition discriminate.
Qed.

Lemma replace_absent old new s o old' :
  old = o :: old' → o ∉ s → replace old new s = s.
Proof.
  intros -> Ho. induction s as [|c s IH]; [done|].
  apply not_elem_of_cons in Ho as [Hne Ho].
  rewrite replace_no_match; [by rewrite IH | done |].
  simpl. apply N.eqb_neq in Hne. by rewrite Hne.
Qed.

(** X3: A reply without a backtick is only stripped. *)
Theorem clean_reply_without_backtick text :
  96 ∉ text → clean_reply text = strip text.
Proof.
  intros H. unfold clean_reply.
  assert (96 ∉ strip text) as H'.
  { intros Hin. apply H. eapply elem_of_sublist; [exact Hin | apply strip_sublist]. }
  rewrite (replace_absent fence_json [] (strip text) 96 (str_of "``json")) by done.
  by rewrite (replace_absent fence [] (strip text) 96 [96; 96]).
Qed.

Lemma clean_reply_without_backtick_witness :
  clean_reply (10 :: reply_arith ++ [32]) = reply_arith.
Proof.
  rewrite (clean_reply_without_backtick (10 :: reply_arith ++ [32])).
  - reflexivity.
  - intros H. apply list_elem_of_In in H. vm_compute in H. intuition discriminate.
Defined.

Lemma lstrip_blank w s : blank w → lstrip (w ++ s) = lstrip s.
Proof. induction 1 as [|c w Hc _ IH]; [done|]. simpl. by rewrite Hc. Qed.

Lemma lstrip_app s w :
  lstrip (s ++ w) = match lstrip s with
                    | [] => lstrip w
                    | _ :: _ => lstrip s ++ w
                    end.
Proof.
  induction s as [|c s IH]; simpl; [by destruct (lstrip w)|].
  by destruct (isspace c).
Qed.

Lemma rstrip_blank w s : blank w → rstrip (s ++ w) = rstrip s.
Proof.
  intros Hw. unfold rstrip. rewrite rev_app_distr, lstrip_blank; [done|].
  unfold blank. by apply Forall_rev.
Qed.

Lemma strip_blank w1 w2 s : blank w1 → blank w2 → strip (w1 ++ s ++ w2) = strip s.
Proof.
  intros H1 H2. unfold strip. rewrite lstrip_blank by done.
  rewrite lstrip_app. destruct (lstrip s) as [|c r] eqn:Hs.
  - rewrite <- (app_nil_r w2), lstrip_blank by done. done.
  - by rewrite rstrip_blank.
Qed.

(** X4: Whitespace around the reply, of any kind [strip] knows, changes
    neither the text handed to the decoder nor the value returned. *)
Theorem gateway_ignores_surrounding_space sec w1 w2 text :
  blank w1 → blank w2 →
  clean_reply (w1 ++ text ++ w2) = clean_reply text
  ∧ fst (parse_quiz_file_with_ai sec (Reply (w1 ++ text ++ w2)))
    = fst (parse_quiz_file_with_ai sec (Reply text)).
Proof.
  intros H1 H2.
  assert (clean_reply (w1 ++ text ++ w2) = clean_reply text) as Heq
    by (unfold clean_reply; by rewrite strip_blank).
  split; [done|]. unfold parse_quiz_file_with_ai.
  destruct (configure_ai sec) as [[] msgs]; [|done]. cbn [negb]. rewrite Heq.
  destruct (json_loads (clean_reply text)) as [e|v]; [done|].
  by destruct (py_len v).
Qed.

(** a no-break space and a form feed before the reply, a line separator
    after it *)
Lemma gateway_ignores_surrounding_space_witness :
  clean_reply ([160; 12] ++ reply_arith ++ [8232]) = clean_reply reply_arith
  ∧ fst (parse_quiz_file_with_ai (Secrets (Some sample_key))
           (Reply ([160; 12] ++ reply_arith ++ [8232])))
    = fst (parse_quiz_file_with_ai (Secrets (Some sample_key)) (Reply reply_arith)).
Proof.
  apply (gateway_ignores_surrounding_space (Secrets (Some sample_key))
           [160; 12] [8232] reply_arith).
  - repeat constructor.
  - repeat constructor.
Defined.
End gateway_properties.

(* ===================================================================== *)
(** * Further properties of the session                                   *)
(* ===================================================================== *)

Section session_properties.
Implicit Types (s : session) (a : action) (q : question) (sec : secrets)
  (svc : service).

Lemma main_initial_empty sec svc s :
  state s = initial →
  fst (parse_quiz_file_with_ai sec svc) = PList [] →
  main (Upload sec svc) s =
    Some {| state := initial; questions := [];
            current_question := current_question s;
            user_answers := user_answers s |}.
Proof. intros Hst Hr. unfold main. by rewrite Hst, Hr. Qed.

(** X5: An upload that yields the empty list -- no usable key, a failed
    extraction, an empty array -- shows the error about the missing
    questions and leaves a fresh session as it is, ready for another
    upload. *)
Theorem upload_without_questions sec svc :
  fst (parse_quiz_file_with_ai sec svc) = PList [] →
  main (Upload sec svc) new_session = Some new_session
  ∧ last (upload_display sec svc) = Some error_no_valid_questions.
Proof.
  intros Hr. split.
  - by rewrite main_initial_empty.
  - unfold upload_display.
    destruct (parse_quiz_file_with_ai sec svc) as [result msgs].
    simpl in Hr. subst result. cbn [has_items py_len length].
    by rewrite last_snoc.
Qed.

Lemma upload_without_questions_witness :
  main (Upload (Secrets None) (Reply reply_arith)) new_session = Some new_session
  ∧ last (upload_display (Secrets None) (Reply reply_arith))
    = Some error_no_valid_questions.
Proof.
  apply (upload_without_questions (Secrets None) (Reply reply_arith)).
  reflexivity.
Defined.

Lemma default_index_lookup (opts : list str) (x : str) :
  x ∈ opts → opts !! default_index opts x = Some x.
Proof.
  intros H. unfold default_index.
  destruct (list_index_elem x opts H) as [k Hk]. rewrite Hk. simpl.
  by apply list_index_lookup.
Qed.

(** X7: Submitting a choice of the radio stores it for the current question
    and nowhere else; the feedback that follows shows that choice
    selected and judges it against the record's answer. *)
Theorem submit_then_feedback s q (choice : str) :
  state s = quiz_started →
  py_index (questions s) (current_question s) = Some q →
  choice ∈ valid_options q →
  ∃ s', main (CheckAnswer choice) s = Some s'
        ∧ state s' = show_feedback
        ∧ current_question s' = current_question s
        ∧ questions s' = questions s
        ∧ user_answers s' = <[current_question s := choice]> (user_answers s)
        ∧ feedback_selected s' = Some choice
        ∧ feedback s' = Some (bool_decide (choice = q_answer q)).
Proof.
  intros Hst Hq Hin. exists (submit_answer choice s).
  split; [unfold main; by rewrite Hst, Hq|].
  unfold feedback_selected, feedback, submit_answer.
  cbn [state questions current_question user_answers].
  rewrite Hq, lookup_insert_eq. cbn [default].
  repeat split; try done. by apply default_index_lookup.
Qed.

Lemma submit_then_feedback_witness :
  ∃ s', main (CheckAnswer (str_of "A")) (session_at quiz_started 1 ∅) = Some s'
        ∧ state s' = show_feedback
        ∧ user_answers s' = {[ 1%Z := str_of "A" ]}
        ∧ feedback_selected s' = Some (str_of "A")
        ∧ feedback s' = Some false.
Proof.
  destruct (submit_then_feedback (session_at quiz_started 1 ∅) q_noise (str_of "A"))
    as (s' & Hm & Hst & _ & _ & Hans & Hsel & Hfb).
  - reflexivity.
  - reflexivity.
  - apply list_elem_of_In. simpl. auto.
  - exists s'. repeat split; assumption.
Defined.

(** X8: Going back to a question and submitting again replaces its entry and
    no other: of two answers given to a question, the ledger keeps the
    last. *)
Theorem revisit_overwrites s (i : nat) (c0 c : str) :
  state s = quiz_started ∨ state s = show_feedback →
  (i < length (questions s))%nat →
  run [Jump (question_label i); CheckAnswer c] s =
    Some {| state := show_feedback;
            questions := questions s;
            current_question := Z.of_nat i;
            user_answers := <[Z.of_nat i := c]> (user_answers s) |}
  ∧ run [Jump (question_label i); CheckAnswer c0;
         Jump (question_label i); CheckAnswer c] s
    = run [Jump (question_label i); CheckAnswer c] s.
Proof.
  intros Hst Hi.
  assert (∀ s1, (state s1 = quiz_started ∨ state s1 = show_feedback) →
                questions s1 = questions s → ∀ x,
          run [Jump (question_label i); CheckAnswer x] s1 =
            Some {| state := show_feedback;
                    questions := questions s;
                    current_question := Z.of_nat i;
                    user_answers := <[Z.of_nat i := x]> (user_answers s1) |}) as Hstep.
  { intros s1 Hst1 Hqs x. cbn [run].
    rewrite main_jump by (done || by rewrite Hqs).
    rewrite main_check_answer; [by rewrite Hqs|done|].
    unfold index_ok. cbn [current_question questions]. rewrite Hqs. lia. }
  split; [by apply Hstep|].
  change [Jump (question_label i); CheckAnswer c0;
          Jump (question_label i); CheckAnswer c]
    with ([Jump (question_label i); CheckAnswer c0]
          ++ [Jump (question_label i); CheckAnswer c]).
  assert (∀ l1 l2 s0, run (l1 ++ l2) s0 = run l1 s0 ≫= run l2) as Happ.
  { induction l1 as [|a l1 IH]; intros l2 s0; [done|].
    cbn [app run]. destruct (main a s0); [apply IH | done]. }
  rewrite Happ, !Hstep by done. cbn [mbind option_bind].
  rewrite Hstep by (done || by right).
  cbn [user_answers]. by rewrite insert_insert_eq.
Qed.

Lemma revisit_overwrites_witness :
  run [Jump (question_label 0); CheckAnswer (str_of "4")]
      (session_at show_feedback 1 {[ 0%Z := str_of "3"; 1%Z := str_of "B" ]})
  = Some (session_at show_feedback 0 {[ 0%Z := str_of "4"; 1%Z := str_of "B" ]}).
Proof.
  destruct (revisit_overwrites
              (session_at show_feedback 1 {[ 0%Z := str_of "3"; 1%Z := str_of "B" ]})
              0 (str_of "3") (str_of "4")) as [H _].
  - right. reflexivity.
  - simpl. lia.
  - rewrite H. reflexivity.
Defined.

Lemma filter_map_length {A B} (p : B → bool) (f : A → B) (l : list A) :
  length (List.filter p (List.map f l)) = length (List.filter (fun x => p (f x)) l).
Proof.
  induction l as [|x l IH]; [done|]. simpl. destruct (p (f x)); simpl; by rewrite IH.
Qed.

Lemma enumerate_from_length {A} (l : list A) (k : Z) :
  length (enumerate_from k l) = length l.
Proof. revert k. induction l as [|y l IH]; intros k; simpl; by rewrite ?IH. Qed.

Lemma jump_to_question_state w s s1 :
  jump_to_question w s = Some s1 → state s1 = quiz_started.
Proof.
  unfold jump_to_question. repeat case_match; try done. by intros [= <-].
Qed.

(** X11: A run ends in [finished] only by the button pressed in the feedback
    of the last question (or because the quiz was finished already): no
    upload, submit or jump finishes a quiz, and the button finishes it
    on no other question. *)
Theorem finished_only_from_last s a s' :
  main a s = Some s' → state s' = finished →
  state s = finished
  ∨ (a = NextButton
     ∧ state s = show_feedback
     ∧ (current_question s + 1)%Z = Z.of_nat (length (questions s))
     ∧ questions s' = questions s
     ∧ user_answers s' = user_answers s
     ∧ current_question s' = current_question s).
Proof.
  unfold main. destruct (state s) eqn:Hst.
  - destruct a; try (intros [= <-]; congruence).
    destruct (as_store _) as [[|q qs]|]; [| |done]; by intros [= <-].
  - destruct a as [| |w|c| |];
      try (destruct (py_index _ _); [|done]; rewrite ?Hst;
           intros [= <-]; simpl; congruence).
    destruct (jump_to_question w s) as [s1|] eqn:Hj; [|done].
    apply jump_to_question_state in Hj.
    destruct (py_index _ _); [|done]. rewrite Hj. intros [= <-]. congruence.
  - destruct a as [| |w|c| |];
      try (destruct (py_index _ _); [|done]; rewrite ?Hst;
           intros [= <-]; simpl; congruence).
    + destruct (jump_to_question w s) as [s1|] eqn:Hj; [|done].
      apply jump_to_question_state in Hj.
      destruct (py_index _ _); [|done]. rewrite Hj. intros [= <-]. congruence.
    + destruct (py_index _ _); [|done]. rewrite Hst. intros [= <-].
      unfold next_question.
      destruct (Z.eqb_spec (current_question s + 1)
                  (Z.of_nat (length (questions s)))) as [Heq|Hne];
        cbn [negb state]; [|done].
      intros _. right. by repeat split.
  - by left.
Qed.

(** the button on the last of two questions *)
Lemma finished_only_from_last_witness :
  state (session_at show_feedback 1 {[ 1%Z := str_of "B" ]}) = finished
  ∨ (NextButton = NextButton
     ∧ state (session_at show_feedback 1 {[ 1%Z := str_of "B" ]}) = show_feedback
     ∧ (current_question (session_at show_feedback 1 {[ 1%Z := str_of "B" ]}) + 1)%Z
       = Z.of_nat (length (questions (session_at show_feedback 1 {[ 1%Z := str_of "B" ]})))
     ∧ questions (session_at finished 1 {[ 1%Z := str_of "B" ]})
       = questions (session_at show_feedback 1 {[ 1%Z := str_of "B" ]})
     ∧ user_answers (session_at finished 1 {[ 1%Z := str_of "B" ]})
       = user_answers (session_at show_feedback 1 {[ 1%Z := str_of "B" ]})
     ∧ current_question (session_at finished 1 {[ 1%Z := str_of "B" ]})
       = current_question (session_at show_feedback 1 {[ 1%Z := str_of "B" ]})).
Proof.
  apply (finished_only_from_last
           (session_at show_feedback 1 {[ 1%Z := str_of "B" ]}) NextButton
           (session_at finished 1 {[ 1%Z := str_of "B" ]})).
  - reflexivity.
  - reflexivity.
Defined.

Lemma question_label_inj : Inj (=) (=) question_label.
Proof.
  intros i j Hij.
  pose proof (jump_to_question_label i new_session) as Hi.
  rewrite Hij, jump_to_question_label in Hi.
  injection Hi as Hi. lia.
Qed.

Lemma jumper_options_lookup (qs : list question) (i : nat) (label : str) :
  jumper_options qs !! i = Some label →
  (i < length qs)%nat ∧ label = question_label i.
Proof.
  unfold jumper_options.
  change (List.map question_label (seq 0 (length qs)))
    with (question_label <$> seq 0 (length qs)).
  rewrite list_lookup_fmap. intros H.
  destruct (seq 0 (length qs) !! i) as [j|] eqn:Hj; [|done].
  apply lookup_seq in Hj as [-> Hlt]. injection H as <-. done.
Qed.

(** X12: The selectbox offers one label per question, no two alike, and the
    callback maps the label at position [i] back to the index [i]. *)
Theorem jumper_labels (qs : list question) :
  length (jumper_options qs) = length qs
  ∧ NoDup (jumper_options qs)
  ∧ ∀ (i : nat) (label : str) s,
      jumper_options qs !! i = Some label →
      jump_to_question label s =
        Some {| state := quiz_started;
                questions := questions s;
                current_question := Z.of_nat i;
                user_answers := user_answers s |}.
Proof.
  split; [unfold jumper_options; by rewrite length_map, length_seq|].
  split.
  - unfold jumper_options.
    change (List.map question_label (seq 0 (length qs)))
      with (question_label <$> seq 0 (length qs)).
    apply (@NoDup_fmap_2 _ _ question_label question_label_inj), NoDup_seq.
  - intros i label s [_ ->]%jumper_options_lookup. apply jump_to_question_label.
Qed.

Lemma list_index_lt (x : str) (opts : list str) (k : nat) :
  list_index x opts = Some k → (k < length opts)%nat.
Proof.
  intros H%list_index_lookup. by apply lookup_lt_Some in H.
Qed.

(** X13: Both radios are given an index of their choice list, whenever the
    list is not empty: the position of the stored answer when it is one
    of the choices, the first position when the ledger has no answer or
    one that is not offered. *)
Theorem radio_index_in_range (opts : list str) (stored : option str) :
  opts ≠ [] →
  (previous_answer_index opts stored < length opts)%nat
  ∧ (default_index opts (default [] stored) < length opts)%nat
  ∧ (∀ x, stored = Some x → x ∈ opts →
          opts !! previous_answer_index opts stored = Some x
          ∧ opts !! default_index opts x = Some x)
  ∧ ((stored = None ∨ ∃ x, stored = Some x ∧ x ∉ opts) →
     previous_answer_index opts stored = 0%nat).
Proof.
  intros Hne.
  assert (0 < length opts)%nat as Hpos by (destruct opts; [done | simpl; lia]).
  split; [|split; [|split]].
  - unfold previous_answer_index. destruct stored as [x|]; [|done].
    destruct (existsb _ _); [|done].
    destruct (list_index x opts) as [k|] eqn:Hk; [|done].
    by apply list_index_lt in Hk.
  - unfold default_index.
    destruct (list_index _ opts) as [k|] eqn:Hk; [|done].
    by apply list_index_lt in Hk.
  - intros x -> Hx. split.
    + by apply previous_answer_preselected.
    + by apply default_index_lookup.
  - intros [-> | (x & -> & Hx)]; [done|].
    unfold previous_answer_index.
    destruct (existsb (str_eqb x) opts) eqn:He; [|done].
    apply existsb_exists in He as (y & Hy & Heq).
    unfold str_eqb in Heq. apply bool_decide_eq_true in Heq. subst y.
    by apply list_elem_of_In in Hy.
Qed.

Lemma radio_index_in_range_witness :
  (previous_answer_index (valid_options q_noise) (Some (str_of "B")) < 2)%nat
  ∧ valid_options q_noise !! previous_answer_index (valid_options q_noise)
                               (Some (str_of "B")) = Some (str_of "B").
Proof.
  destruct (radio_index_in_range (valid_options q_noise) (Some (str_of "B")))
    as (H1 & _ & H3 & _).
  - discriminate.
  - split; [exact H1|].
    apply (H3 (str_of "B")); [reflexivity|].
    apply list_elem_of_In. simpl. auto.
Defined.

Lemma next_question_finished s :
  state (next_question s) = finished →
  (current_question s + 1)%Z = Z.of_nat (length (questions s))
  ∧ next_question s = {| state := finished;
                         questions := questions s;
                         current_question := current_question s;
                         user_answers := user_answers s |}.
Proof.
  unfold next_question.
  destruct (Z.eqb_spec (current_question s + 1)
              (Z.of_nat (length (questions s)))); by cbn [negb state].
Qed.

(** X14: In the sessions of a quiz, a finished quiz rests on its last
    question, and the ledger holds an answer to that question. *)
Theorem reachable_finished s :
  reachable s → state s = finished →
  (current_question s + 1)%Z = Z.of_nat (length (questions s))
  ∧ is_Some (user_answers s !! current_question s).
Proof.
  induction 1 as [sec svc s Hup Hne | s a s' Hreach IH Hop Hradio Hmain].
  - destruct (main_upload_index_ok sec svc s Hup Hne) as [Hst _]. congruence.
  - destruct (reachable_invariants s Hreach) as (Hok & Hfb & _).
    destruct (main_quiz_cases s a s' Hok Hop Hmain)
      as [-> | [(c & -> & Hst & ->) | [(-> & Hst & ->) | (i & -> & Hi & ->)]]];
      try done.
    intros Hfin. apply next_question_finished in Hfin as [Hlast ->].
    cbn [current_question questions user_answers]. split; [done|]. by apply Hfb.
Qed.
(** the one-question quiz, answered and finished *)
Lemma reachable_finished_witness :
  let s := {| state := finished; questions := [q_arith];
              current_question := 0%Z;
              user_answers := {[ 0%Z := str_of "4" ]} |} in
  (current_question s + 1)%Z = Z.of_nat (length (questions s))
  ∧ is_Some (user_answers s !! current_question s).
Proof.
  intros s. apply (reachable_finished s); [|reflexivity]. subst s.
  apply (reachable_step
           {| state := show_feedback; questions := [q_arith];
              current_question := 0%Z;
              user_answers := {[ 0%Z := str_of "4" ]} |} NextButton);
    [|exact I|exact I|reflexivity].
  apply (reachable_step
           {| state := quiz_started; questions := [q_arith];
              current_question := 0%Z;
              user_answers := ∅ |} (CheckAnswer (str_of "4")));
    [|exact I| |reflexivity].
  - apply (reachable_upload (Secrets (Some sample_key)) (Reply reply_arith));
      [reflexivity | discriminate].
  - exists q_arith. split; [reflexivity|].
    apply list_elem_of_In. simpl. auto.
Defined.

(** X6: An upload whose value is a list of question objects, not empty,
    starts the quiz: on the first question, with that store in the
    order of the reply, an empty ledger, and no error displayed. *)
Theorem upload_with_questions sec svc q qs :
  as_store (fst (parse_quiz_file_with_ai sec svc)) = Some (q :: qs) →
  main (Upload sec svc) new_session =
    Some {| state := quiz_started; questions := q :: qs;
            current_question := 0; user_answers := ∅ |}
  ∧ upload_display sec svc
    = [gateway_says info_analyzing;
       gateway_says (success_found (S (length qs)))].
Proof.
  intros Hstore. split.
  - unfold main. cbn [state new_session]. by rewrite Hstore.
  - destruct (gateway_result_shape sec svc) as (n & Hlen & Hmsg & _).
    unfold upload_display, has_items.
    destruct (parse_quiz_file_with_ai sec svc) as [result msgs].
    cbn [fst snd] in *.
    destruct result as [| | | | |l|]; try done.
    cbn [as_store py_len] in *. injection Hlen as <-.
    assert (length l = S (length qs)) as Hl.
    { apply length_mapM in Hstore. by rewrite Hstore. }
    rewrite Hmsg by lia. by rewrite Hl.
Qed.

Lemma upload_with_questions_witness :
  main (Upload (Secrets (Some sample_key)) (Reply reply_arith)) new_session =
    Some {| state := quiz_started; questions := [q_arith];
            current_question := 0; user_answers := ∅ |}
  ∧ upload_display (Secrets (Some sample_key)) (Reply reply_arith)
    = [gateway_says info_analyzing; gateway_says (success_found 1)].
Proof.
  apply (upload_with_questions (Secrets (Some sample_key)) (Reply reply_arith)
           q_arith []).
  reflexivity.
Defined.

End session_properties.

(* ===================================================================== *)
(** * Properties of the debugging tool                                    *)
(* ===================================================================== *)

Section debug_tool.
Implicit Types (s t tail acc : str) (c : N) (f : analyzed).

Example dump_sample :
  dump_output_data (str_of "tt.pdf") (str_of "a b") =
  [123; 10; 32; 32] ++ json_of "'source_file': 'tt.pdf'," ++ [10; 32; 32]
  ++ json_of "'extracted_text': 'a b'" ++ [10; 125].
Proof. reflexivity. Qed.

Example escape_samples :
  flat_map escape_char [34; 92; 10; 1; 31; 127; 233]
  = json_of "\'\\\n\u0001\u001f" ++ [127; 233].
Proof. reflexivity. Qed.

Lemma lex_top_step c toks tail :
  lstep_top c = Some (toks, LTop) →
  lex LTop (c :: tail) = match lex LTop tail with
                         | Some rest => Some (toks ++ rest)
                         | None => None
                         end.
Proof. intros H. cbn [lex lstep]. by rewrite H. Qed.

Lemma control_characters c :
  (c <? 32) = true →
  In c [0; 1; 2; 3; 4; 5; 6; 7; 8; 9; 10; 11; 12; 13; 14; 15; 16; 17; 18; 19;
        20; 21; 22; 23; 24; 25; 26; 27; 28; 29; 30; 31].
Proof.
  intros H%N.ltb_lt. simpl. lia.
Qed.

Lemma lex_silent st c st' tail :
  lstep st c = Some ([], st') → lex st (c :: tail) = lex st' tail.
Proof. intros H. cbn [lex]. rewrite H. by destruct (lex st' tail). Qed.

(** The decoder reads an escaped character back as the character. *)
Lemma lex_escape_char c acc hi tail :
  lex (LStr acc hi) (escape_char c ++ tail) = lex (LStr (c :: acc) false) tail.
Proof.
  unfold escape_char.
  destruct (N.eqb_spec c 34) as [->|H34];
    [cbn [app]; by repeat (erewrite lex_silent; [|vm_compute; reflexivity])|].
  destruct (N.eqb_spec c 92) as [->|H92];
    [cbn [app]; by repeat (erewrite lex_silent; [|vm_compute; reflexivity])|].
  destruct (N.eqb_spec c 10) as [->|H10];
    [cbn [app]; by repeat (erewrite lex_silent; [|vm_compute; reflexivity])|].
  destruct (N.eqb_spec c 13) as [->|H13];
    [cbn [app]; by repeat (erewrite lex_silent; [|vm_compute; reflexivity])|].
  destruct (N.eqb_spec c 9) as [->|H9];
    [cbn [app]; by repeat (erewrite lex_silent; [|vm_compute; reflexivity])|].
  destruct (N.eqb_spec c 8) as [->|H8];
    [cbn [app]; by repeat (erewrite lex_silent; [|vm_compute; reflexivity])|].
  destruct (N.eqb_spec c 12) as [->|H12];
    [cbn [app]; by repeat (erewrite lex_silent; [|vm_compute; reflexivity])|].
  destruct (c <? 32) eqn:Hlt.
  - apply control_characters in Hlt. simpl in Hlt.
    repeat (destruct Hlt as [<-|Hlt];
            [try done; destruct acc, hi; cbn [app];
             by repeat (erewrite lex_silent; [|vm_compute; reflexivity])|]).
    done.
  - cbn [app]. apply lex_silent. cbn [lstep]. unfold dquote.
    apply N.eqb_neq in H34, H92. by rewrite H34, H92, Hlt.
Qed.

Lemma lex_string_body s acc hi tail :
  lex (LStr acc hi) (flat_map escape_char s ++ dquote :: tail)
  = match lex LTop tail with
    | Some rest => Some (TString (rev acc ++ s) :: rest)
    | None => None
    end.
Proof.
  revert acc hi. induction s as [|c s IH]; intros acc hi.
  - cbn. rewrite app_nil_r. by destruct (lex LTop tail).
  - cbn [flat_map]. rewrite <- app_assoc, lex_escape_char, IH.
    cbn [rev]. by rewrite <- app_assoc.
Qed.

(** What [encode_basestring] writes, the decoder reads as one string
    token holding the original. *)
Lemma lex_encode_basestring s tail :
  lex LTop (encode_basestring s ++ tail)
  = match lex LTop tail with
    | Some rest => Some (TString s :: rest)
    | None => None
    end.
Proof.
  unfold encode_basestring. cbn [app lex lstep]. unfold lstep_top. cbn.
  rewrite <- app_assoc. cbn [app]. rewrite lex_string_body. cbn [rev app].
  by destruct (lex LTop tail).
Qed.

Lemma json_loads_dump_output_data (file_path full_text : str) :
  json_loads (dump_output_data file_path full_text)
  = inr (PDict [ (str_of "source_file", PStr file_path);
                 (str_of "extracted_text", PStr full_text) ]).
Proof.
  unfold json_loads, dump_output_data.
  assert (lex LTop ([123; 10; 32; 32]
                    ++ encode_basestring (str_of "source_file") ++ [58; 32]
                    ++ encode_basestring file_path ++ [44; 10; 32; 32]
                    ++ encode_basestring (str_of "extracted_text") ++ [58; 32]
                    ++ encode_basestring full_text ++ [10; 125])
          = Some [TLBrace; TString (str_of "source_file"); TColon;
                  TString file_path; TComma;
                  TString (str_of "extracted_text"); TColon;
                  TString full_text; TRBrace]) as ->.
  { cbn [app].
    rewrite (lex_top_step 123 [TLBrace]) by done.
    rewrite !lex_cons_ws by done.
    rewrite lex_encode_basestring. cbn [app].
    rewrite (lex_top_step 58 [TColon]) by done.
    rewrite !lex_cons_ws by done.
    rewrite lex_encode_basestring. cbn [app].
    rewrite (lex_top_step 44 [TComma]) by done.
    rewrite !lex_cons_ws by done.
    rewrite lex_encode_basestring. cbn [app].
    rewrite (lex_top_step 58 [TColon]) by done.
    rewrite !lex_cons_ws by done.
    rewrite lex_encode_basestring. cbn [app].
    rewrite !lex_cons_ws by done.
    rewrite (lex_top_step 125 [TRBrace]) by done.
    reflexivity. }
  reflexivity.
Qed.

Lemma save_raw_text_written file_path full_text f content r :
  save_raw_text file_path full_text f = (Written content, r) →
  r = raw_text_saved ∧ content = dump_output_data file_path full_text.
Proof.
  unfold save_raw_text. destruct (output_opens f); cbn [negb]; [|done].
  destruct (utf8_encodable _); [|done]. by intros [= <- <-].
Qed.

(** X16: Whenever the tool writes its file, the file is a JSON document that
    decodes to the path it was given, under [source_file], and the text
    it extracted, under [extracted_text]: nothing of either is lost or
    altered by the encoding. *)
Theorem saved_file_round_trip file_path f content r :
  extract_and_save_raw_text file_path f = (Written content, r) →
  r = raw_text_saved
  ∧ path_exists f = true
  ∧ ∃ text, extracted_text f = Some text
            ∧ json_loads content
              = inr (PDict [ (str_of "source_file", PStr file_path);
                             (str_of "extracted_text", PStr text) ]).
Proof.
  unfold extract_and_save_raw_text, extracted_text.
  destruct (path_exists f); cbn [negb]; [|done].
  destruct (str_eqb (file_type f) (str_of ".pdf")).
  - destruct (pdf_pages f) as [cause|pages]; [done|].
    intros [-> ->]%save_raw_text_written. split; [done|]. split; [done|].
    eexists. split; [done|]. apply json_loads_dump_output_data.
  - destruct (str_eqb (file_type f) (str_of ".docx")); [|done].
    destruct (docx_paragraphs f) as [cause|paragraphs]; [done|].
    intros [-> ->]%save_raw_text_written. split; [done|]. split; [done|].
    eexists. split; [done|]. apply json_loads_dump_output_data.
Qed.

(** a PDF of three pages, the second without text, the third with
    double quotes *)
Lemma saved_file_round_trip_witness :
  raw_text_saved = raw_text_saved
  ∧ path_exists sample_pdf = true
  ∧ ∃ text, extracted_text sample_pdf = Some text
            ∧ json_loads (dump_output_data (str_of "tt.pdf")
                            (str_of "Q1" ++ [10] ++ json_of "say 'a'"))
              = inr (PDict [ (str_of "source_file", PStr (str_of "tt.pdf"));
                             (str_of "extracted_text", PStr text) ]).
Proof.
  apply (saved_file_round_trip (str_of "tt.pdf") sample_pdf
           (dump_output_data (str_of "tt.pdf")
              (str_of "Q1" ++ [10] ++ json_of "say 'a'"))
           raw_text_saved).
  reflexivity.
Defined.

(** X17: The tool reports success exactly when it has written its file
    completely; a missing file, a type other than [.pdf] and [.docx], an
    extraction that raises and an output file that does not open leave
    the output file untouched. *)
Theorem tool_report_and_file file_path f :
  (snd (extract_and_save_raw_text file_path f) = raw_text_saved ↔
   ∃ content, fst (extract_and_save_raw_text file_path f) = Written content)
  ∧ (path_exists f = false →
     extract_and_save_raw_text file_path f = (Untouched, file_not_found file_path))
  ∧ (extracted_text f = None →
     fst (extract_and_save_raw_text file_path f) = Untouched)
  ∧ (output_opens f = false →
     fst (extract_and_save_raw_text file_path f) = Untouched).
Proof.
  unfold extract_and_save_raw_text, extracted_text, save_raw_text.
  destruct (path_exists f); cbn [negb].
  2:{ split; [split; [done | by intros [? ?]]|]. done. }
  destruct (str_eqb (file_type f) (str_of ".pdf")).
  - destruct (pdf_pages f) as [cause|pages].
    + split; [split; [done | by intros [? ?]]|]. done.
    + destruct (output_opens f); cbn [negb].
      * destruct (utf8_encodable _); cbn [fst snd].
        -- split; [split; [eauto | done]|]. done.
        -- split; [split; [done | by intros [? ?]]|]. done.
      * split; [split; [done | by intros [? ?]]|]. done.
  - destruct (str_eqb (file_type f) (str_of ".docx")).
    + destruct (docx_paragraphs f) as [cause|paragraphs].
      * split; [split; [done | by intros [? ?]]|]. done.
      * destruct (output_opens f); cbn [negb].
        -- destruct (utf8_encodable _); cbn [fst snd].
           ++ split; [split; [eauto | done]|]. done.
           ++ split; [split; [done | by intros [? ?]]|]. done.
        -- split; [split; [done | by intros [? ?]]|]. done.
    + split; [split; [done | by intros [? ?]]|]. done.
Qed.

Lemma page_texts_app (l1 l2 : list (option str)) :
  page_texts (l1 ++ l2) = page_texts l1 ++ page_texts l2.
Proof. apply omap_app. Qed.

Lemma page_texts_not_empty (pages : list (option str)) :
  Forall (fun t : str => t ≠ []) (page_texts pages).
Proof.
  induction pages as [|[[|c r]|] pages IH]; cbn; try done.
  by constructor.
Qed.

Lemma join_nil_inv (sep : str) (l : list str) :
  Forall (fun t : str => t ≠ []) l → join sep l = [] → l = [].
Proof.
  destruct 1 as [|x l Hx _]; [done|].
  cbn [join]. destruct l; [done|]. by destruct x.
Qed.

(** X18: The text taken from a PDF is that of its pages in order, one line
    feed between two of them; a page without text -- [extract_text]
    gives [None] or the empty string -- leaves nothing, not even a line
    feed, so that the text is empty only if no page has any. *)
Theorem pdf_text_skips_empty_pages (pages1 pages2 : list (option str))
    (blank_page : option str) :
  blank_page = None ∨ blank_page = Some [] →
  pdf_text (pages1 ++ blank_page :: pages2) = pdf_text (pages1 ++ pages2)
  ∧ (pdf_text (pages1 ++ pages2) = [] ↔
     ∀ t, Some t ∈ pages1 ++ pages2 → t = []).
Proof.
  intros Hb. split.
  - unfold pdf_text. rewrite !page_texts_app.
    by destruct Hb as [-> | ->].
  - unfold pdf_text. generalize (pages1 ++ pages2). intros pages. split.
    + intros Hnil%join_nil_inv; [|apply page_texts_not_empty].
      intros t Ht. destruct t as [|c r]; [done|].
      assert (c :: r ∈ page_texts pages) as Hin.
      { unfold page_texts. apply list_elem_of_omap. by exists (Some (c :: r)). }
      rewrite Hnil in Hin. by apply not_elem_of_nil in Hin.
    + intros Hall. assert (page_texts pages = []) as ->; [|done].
      induction pages as [|[[|c r]|] pages IH]; cbn; try done.
      * apply IH. intros t Ht. apply Hall. by right.
      * specialize (Hall (c :: r) ltac:(by left)). done.
      * apply IH. intros t Ht. apply Hall. by right.
Qed.

Lemma pdf_text_skips_empty_pages_witness :
  pdf_text ([Some (str_of "Q1")] ++ Some [] :: [Some (str_of "Q2")])
    = pdf_text ([Some (str_of "Q1")] ++ [Some (str_of "Q2")])
  ∧ (pdf_text ([Some (str_of "Q1")] ++ [Some (str_of "Q2")]) = [] ↔
     ∀ t, Some t ∈ [Some (str_of "Q1")] ++ [Some (str_of "Q2")] → t = []).
Proof.
  apply (pdf_text_skips_empty_pages [Some (str_of "Q1")] [Some (str_of "Q2")]
           (Some [])).
  right. reflexivity.
Defined.
End debug_tool.

(* ===================================================================== *)
(** * The score and the review on the store as it is                      *)
(* ===================================================================== *)

Section finished_branch.
Implicit Types (v a d q questions : pyval) (l : list pyval)
  (answers : gmap Z pyval) (bs : list bool).

Lemma py_eq_none v : py_eq PNone v = true ↔ v = PNone.
Proof. destruct v; simpl; split; done. Qed.

Lemma py_eq_str t v : py_eq (PStr t) v = true ↔ v = PStr t.
Proof.
  destruct v as [| | | |u| |]; simpl; split; try done.
  - unfold str_eqb. intros H%bool_decide_eq_true. by subst.
  - intros [= ->]. unfold str_eqb. by apply bool_decide_eq_true.
Qed.

Lemma verdicts_length d answers iqs bs :
  verdicts d answers iqs = Some bs → length bs = length iqs.
Proof.
  revert bs. induction iqs as [|[i q] iqs IH]; intros bs; simpl.
  - by intros [= <-].
  - destruct (py_getitem q _); [|done].
    destruct (verdicts d answers iqs) as [bs'|]; [|done].
    intros [= <-]. simpl. by rewrite (IH bs').
Qed.

(** The verdicts exist when every record has an [answer]. *)
Lemma verdicts_is_Some d answers k l :
  is_Some (verdicts d answers (enumerate_from k l))
  ↔ Forall (fun q => is_Some (py_getitem q (str_of "answer"))) l.
Proof.
  revert k. induction l as [|q l IH]; intros k; cbn [enumerate_from verdicts].
  - split; [constructor | by eexists].
  - rewrite Forall_cons, <- (IH (k + 1)%Z).
    destruct (py_getitem q _) as [a|].
    + destruct (verdicts d answers (enumerate_from (k + 1) l)).
      * split; [by split; eexists | by eexists].
      * split; [by intros [x Hx] | by intros [_ [x Hx]]].
    + split; [by intros [x Hx] | by intros [[x Hx] _]].
Qed.

(** The verdict at each index. *)
Lemma verdicts_lookup d answers k l bs (i : nat) q :
  verdicts d answers (enumerate_from k l) = Some bs →
  l !! i = Some q →
  ∃ a, py_getitem q (str_of "answer") = Some a
       ∧ bs !! i = Some (py_eq (py_get answers (k + Z.of_nat i) d) a).
Proof.
  revert k bs i. induction l as [|x l IH]; intros k bs i; [done|].
  cbn [enumerate_from verdicts].
  destruct (py_getitem x _) as [a|] eqn:Ha; [|done].
  destruct (verdicts d answers (enumerate_from (k + 1) l)) as [bs'|] eqn:Hv; [|done].
  intros [= <-]. destruct i as [|i]; simpl.
  - intros [= <-]. exists a. by rewrite Z.add_0_r.
  - intros Hq. destruct (IH _ _ _ Hv Hq) as (a' & Ha' & Hb).
    exists a'. split; [done|]. rewrite Hb. do 3 f_equal. lia.
Qed.

Lemma filter_id_length bs :
  (length (List.filter id bs) ≤ length bs)%nat
  ∧ (length (List.filter id bs) = length bs ↔ ∀ i b, bs !! i = Some b → b = true).
Proof.
  induction bs as [|b bs [IH1 IH2]]; simpl.
  - split; [lia|]. split; [by intros _ [|] | done].
  - destruct b; simpl.
    + split; [lia|]. split.
      * intros Hlen [|i] b; simpl; [by intros [= <-]|].
        apply IH2. lia.
      * intros Hall. f_equal. apply IH2. intros i b. apply (Hall (S i)).
    + split; [lia|]. split; [lia|]. intros Hall. by specialize (Hall 0%nat false eq_refl).
Qed.
End finished_branch.

Section store_as_it_is.
Implicit Types (s : session) (a : action) (q : question) (qs : list question)
  (answers : gmap Z str).

Lemma py_getitem_question q :
  py_getitem (record_of q) (str_of "question") = Some (PStr (q_question q)).
Proof. done. Qed.

Lemma py_getitem_options q :
  py_getitem (record_of q) (str_of "options")
  = Some (PList (List.map PStr (q_options q))).
Proof. done. Qed.

Lemma py_getitem_answer q :
  py_getitem (record_of q) (str_of "answer") = Some (PStr (q_answer q)).
Proof. done. Qed.

Lemma mapM_as_str_PStr (l : list str) : mapM as_str (List.map PStr l) = Some l.
Proof. induction l as [|x l IH]; [done|]. simpl. by rewrite IH. Qed.

(** A question record is read back from its JSON object. *)
Lemma as_question_record_of q : as_question (record_of q) = Some q.
Proof.
  unfold as_question.
  rewrite py_getitem_question, py_getitem_options, py_getitem_answer.
  rewrite mapM_as_str_PStr. by destruct q.
Qed.

Lemma as_store_store_of qs : as_store (store_of qs) = Some qs.
Proof.
  unfold as_store, store_of. induction qs as [|q qs IH]; [done|].
  cbn [List.map mapM]. rewrite as_question_record_of. simpl.
  by rewrite IH.
Qed.

Lemma py_truthy_PStr (l : list str) :
  List.filter py_truthy (List.map PStr l)
  = List.map PStr (List.filter (fun opt => negb (str_eqb opt [])) l).
Proof.
  induction l as [|x l IH]; [done|]. simpl.
  destruct (str_eqb x []); simpl; by rewrite IH.
Qed.

(** The choice list of a record. *)
Lemma py_valid_options_record_of q :
  py_valid_options (record_of q) = Some (List.map PStr (valid_options q)).
Proof.
  unfold py_valid_options, valid_options. rewrite py_getitem_options.
  cbn [py_iter]. by rewrite py_truthy_PStr.
Qed.

Lemma verdicts_records (d : option str) answers k qs :
  verdicts (from_option PStr PNone d) (ledger_of answers)
    (enumerate_from k (List.map record_of qs))
  = Some (List.map
            (fun iq => match answers !! fst iq, d with
                       | Some x, _ | None, Some x => str_eqb x (q_answer (snd iq))
                       | None, None => false
                       end)
            (enumerate_from k qs)).
Proof.
  revert k. induction qs as [|q qs IH]; intros k; [done|].
  cbn [List.map enumerate_from verdicts fst snd].
  rewrite py_getitem_answer, IH. do 2 f_equal.
  unfold py_get, ledger_of. rewrite lookup_fmap.
  destruct (answers !! k) as [x|]; simpl; [done|].
  by destruct d.
Qed.

(** On a store of question records and a ledger of strings, the score
    is the one of [score]. *)
Lemma py_score_records s :
  py_score (store_of (questions s)) (ledger_of (user_answers s))
  = Some (score s).
Proof.
  unfold py_score, store_of, enumerate. cbn [py_iter].
  rewrite (verdicts_records None). f_equal.
  unfold score. rewrite list_sum_ones, filter_map_length. unfold enumerate.
  reflexivity.
Qed.

Lemma py_review_records qs answers :
  is_Some (py_review (store_of qs) (ledger_of answers)).
Proof.
  unfold py_review, store_of, enumerate. cbn [py_iter].
  assert (mapM (fun r : pyval => py_getitem r (str_of "question"))
            (List.map record_of qs)
          = Some (List.map (fun q => PStr (q_question q)) qs)) as ->.
  { induction qs as [|q qs IH]; [done|]. cbn [List.map mapM].
    rewrite py_getitem_question. simpl. by rewrite IH. }
  rewrite (verdicts_records (Some not_answered)). by eexists.
Qed.

Lemma py_jump_records w s :
  py_jump_to_question w (py_session_of s) = py_session_of <$> jump_to_question w s.
Proof.
  unfold py_jump_to_question, jump_to_question.
  destruct (split 32 w !! 1%nat) as [x|]; [|done].
  by destruct (py_int x).
Qed.

Lemma py_submit_records x s :
  py_submit_answer (PStr x) (py_session_of s) = py_session_of (submit_answer x s).
Proof.
  unfold py_submit_answer, submit_answer, py_session_of, ledger_of. simpl.
  by rewrite fmap_insert.
Qed.

Lemma py_next_records s :
  py_next_question (length (questions s)) (py_session_of s)
  = py_session_of (next_question s).
Proof.
  unfold py_next_question, next_question. cbn [py_session_of py_current_question].
  by destruct (negb _).
Qed.

(** What a run does once the callback is through. *)
Lemma py_main_quiz_records a s :
  state s = quiz_started ∨ state s = show_feedback →
  match py_subscript (py_questions (py_session_of s))
          (py_current_question (py_session_of s)) with
  | None => None
  | Some q_data =>
      match py_getitem q_data (str_of "question"), py_valid_options q_data with
      | Some _, Some _ =>
          match py_state (py_session_of s) with
          | quiz_started =>
              match py_action_of a with
              | PyCheckAnswer user_choice =>
                  Some (py_submit_answer user_choice (py_session_of s))
              | _ => Some (py_session_of s)
              end
          | show_feedback =>
              match py_getitem q_data (str_of "answer"),
                    py_len (py_questions (py_session_of s)) with
              | Some _, Some n =>
                  match py_action_of a with
                  | PyNextButton => Some (py_next_question n (py_session_of s))
                  | _ => Some (py_session_of s)
                  end
              | _, _ => None
              end
          | _ => Some (py_session_of s)
          end
      | _, _ => None
      end
  end
  = py_session_of <$>
      match py_index (questions s) (current_question s) with
      | None => None
      | Some q_data =>
          match state s, a with
          | quiz_started, CheckAnswer user_choice =>
              Some (submit_answer user_choice s)
          | show_feedback, NextButton => Some (next_question s)
          | _, _ => Some s
          end
      end.
Proof.
  intros Hst.
  change (py_questions (py_session_of s)) with (store_of (questions s)).
  change (py_current_question (py_session_of s)) with (current_question s).
  change (py_state (py_session_of s)) with (state s).
  unfold store_of. cbn [py_subscript py_len]. rewrite py_index_map, length_map.
  destruct (py_index (questions s) (current_question s)) as [q|]; [|done].
  cbn [fmap option_fmap option_map].
  rewrite py_getitem_question, py_valid_options_record_of, py_getitem_answer.
  destruct Hst as [Hst|Hst]; rewrite Hst.
  - destruct a; cbn [py_action_of]; try done. by rewrite py_submit_records.
  - destruct a; cbn [py_action_of]; try done. by rewrite py_next_records.
Qed.

(** A run of [main] on a session of question records is the run of
    [py_main]: the one reads the fields of the records where the other
    reads the keys of the objects. *)
Lemma py_main_records a s :
  (∀ sec svc, a ≠ Upload sec svc) →
  py_main (py_action_of a) (py_session_of s) = py_session_of <$> main a s.
Proof.
  intros Ha. unfold py_main, main.
  change (py_state (py_session_of s)) with (state s).
  assert (match py_action_of a with
          | PyJump w => py_jump_to_question w (py_session_of s)
          | _ => Some (py_session_of s)
          end
          = py_session_of <$> match a with
                              | Jump w => jump_to_question w s
                              | _ => Some s
                              end) as Hcb.
  { destruct a; try done. apply py_jump_records. }
  assert (∀ s1, match a with
                | Jump w => jump_to_question w s
                | _ => Some s
                end = Some s1 →
                state s = quiz_started ∨ state s = show_feedback →
                state s1 = quiz_started ∨ state s1 = show_feedback) as Hs1.
  { intros s1 H Hst. destruct a; try (by injection H as <-).
    left. unfold jump_to_question in H. repeat case_match; try done.
    by injection H as <-. }
  destruct (state s) eqn:Hst.
  - destruct a; try done. by destruct (Ha sec svc).
  - rewrite Hcb. destruct (match a with Jump _ => _ | _ => _ end) as [s1|]; [|done].
    cbn [fmap option_fmap option_map].
    apply py_main_quiz_records. apply Hs1; auto.
  - rewrite Hcb. destruct (match a with Jump _ => _ | _ => _ end) as [s1|]; [|done].
    cbn [fmap option_fmap option_map].
    apply py_main_quiz_records. apply Hs1; auto.
  - change (py_questions (py_session_of s)) with (store_of (questions s)).
    change (py_user_answers (py_session_of s)) with (ledger_of (user_answers s)).
    rewrite py_score_records.
    destruct (py_review_records (questions s) (user_answers s)) as [bs ->].
    by destruct a.
Qed.

(** An upload whose value is a list of question records. *)
Lemma py_main_upload_records sec svc s qs :
  state s = initial →
  fst (parse_quiz_file_with_ai sec svc) = store_of qs →
  ∃ s', main (Upload sec svc) s = Some s'
        ∧ questions s' = qs
        ∧ py_main (PyUpload sec (response_of svc)) (py_session_of s)
          = Some (py_session_of s').
Proof.
  intros Hst Hqs. unfold main, py_main.
  change (py_state (py_session_of s)) with (state s). rewrite Hst, Hqs.
  rewrite as_store_store_of. eexists. split; [done|]. split; [done|].
  assert (fst (parse_quiz_file_with_ai_outcome sec (response_of svc))
          = Returns (store_of qs)) as ->.
  { rewrite <- Hqs. unfold parse_quiz_file_with_ai_outcome, parse_quiz_file_with_ai.
    destruct (configure_ai sec) as [[] msgs]; [|done]. cbn [negb].
    destruct svc as [cause|text]; [done|]. cbn [response_of].
    destruct (json_loads (clean_reply text)) as [e|v]; [done|].
    by destruct (py_len v). }
  unfold py_session_of. cbn. by destruct qs.
Qed.
End store_as_it_is.

(* ===================================================================== *)
(** * The score of a finished quiz                                        *)
(* ===================================================================== *)

Section final_score.
Implicit Types (v a d q questions : pyval) (l : list pyval)
  (answers : gmap Z pyval) (bs : list bool).

(** X19: What the score makes of a question without entry in the
    ledger: the generator of line 132 counts it when the answer of its
    record is [None], and only then. *)
Theorem score_counts_unanswered_iff_null answers l bs (i : nat) q :
  verdicts PNone answers (enumerate l) = Some bs →
  l !! i = Some q →
  answers !! Z.of_nat i = None →
  bs !! i = Some true ↔ py_getitem q (str_of "answer") = Some PNone.
Proof.
  intros Hv Hq Hi. unfold enumerate in Hv.
  destruct (verdicts_lookup _ _ _ _ _ _ _ Hv Hq) as (a & Ha & Hb).
  rewrite Z.add_0_l in Hb. unfold py_get in Hb. rewrite Hi in Hb.
  cbn [default] in Hb. rewrite Hb, Ha. split.
  - intros [= H]. apply py_eq_none in H. by subst.
  - intros [= ->]. done.
Qed.

(** the first question of the quiz finished below *)
Lemma score_counts_unanswered_iff_null_witness :
  [true; true] !! 0%nat = Some true
  ↔ py_getitem record_null (str_of "answer") = Some PNone.
Proof.
  apply (score_counts_unanswered_iff_null {[ 1%Z := PStr (str_of "C") ]}
           [record_null; record_c] [true; true] 0 record_null).
  - vm_compute. reflexivity.
  - reflexivity.
  - reflexivity.
Defined.

(** C2: the score counts a question that was never answered when its
    record has the answer [null].  The reply holds two questions, the
    first with ["answer": null]; the user skips to the second, answers
    it and finishes.  The ledger has no entry for the first question,
    [user_answers.get(0)] is [None], and [None == None]: the score is 2
    of 2, while the review, which reads the ledger with the default
    [Not Answered], shows the first question as not correct. *)
Theorem unanswered_null_answer_is_counted :
  let s := {| py_state := finished;
              py_questions := PList [record_null; record_c];
              py_current_question := 1;
              py_user_answers := {[ 1%Z := PStr (str_of "C") ]} |} in
  py_run [ PyUpload (Secrets (Some sample_key)) (ResponseText reply_null);
           PyRerun;
           PyJump (str_of "Question 2");
           PyCheckAnswer (PStr (str_of "C"));
           PyRerun;
           PyNextButton;
           PyRerun ] py_new_session = Some s
  ∧ py_user_answers s !! 0%Z = None
  ∧ py_score (py_questions s) (py_user_answers s) = Some 2%nat
  ∧ py_review (py_questions s) (py_user_answers s) = Some [false; true].
Proof.
  intros s. split; [vm_compute; reflexivity|].
  split; [reflexivity|].
  split; vm_compute; reflexivity.
Qed.

(** X9: On a store that can be iterated, the score is evaluated without
    exception exactly when every record has an [answer]; it never
    exceeds the number of records, and reaches it exactly when for every
    record the ledger's entry -- [None] where there is none -- equals
    the record's answer. *)
Theorem py_score_at_most_questions questions answers l :
  py_iter questions = Some l →
  (is_Some (py_score questions answers)
   ↔ Forall (fun q => is_Some (py_getitem q (str_of "answer"))) l)
  ∧ ∀ n, py_score questions answers = Some n →
         (n ≤ length l)%nat
         ∧ (n = length l ↔
            ∀ (i : nat) q, l !! i = Some q →
              ∃ a, py_getitem q (str_of "answer") = Some a
                   ∧ py_eq (py_get answers (Z.of_nat i) PNone) a = true).
Proof.
  intros Hl. unfold py_score. rewrite Hl. unfold enumerate. split.
  { rewrite <- (verdicts_is_Some PNone answers 0 l).
    destruct (verdicts PNone answers (enumerate_from 0 l)) as [bs|].
    - split; intros _; by eexists.
    - split; by intros [x Hx]. }
  intros n. destruct (verdicts PNone answers (enumerate_from 0 l)) as [bs|] eqn:Hv;
    [|done].
  intros [= <-].
  pose proof (verdicts_length _ _ _ _ Hv) as Hlen.
  rewrite enumerate_from_length in Hlen.
  destruct (filter_id_length bs) as [Hle Hall]. rewrite Hlen in Hle, Hall.
  split; [done|]. rewrite Hall. split.
  - intros Htrue i q Hq.
    destruct (verdicts_lookup _ _ _ _ _ _ _ Hv Hq) as (a & Ha & Hb).
    exists a. split; [done|]. rewrite Z.add_0_l in Hb. by apply (Htrue i).
  - intros Heq i b Hb.
    destruct (l !! i) as [q|] eqn:Hq.
    + destruct (verdicts_lookup _ _ _ _ _ _ _ Hv Hq) as (a & Ha & Hb').
      destruct (Heq i q Hq) as (a' & Ha' & Htrue).
      rewrite Z.add_0_l in Hb'. congruence.
    + apply lookup_ge_None in Hq. apply lookup_lt_Some in Hb. lia.
Qed.

(** the store and the ledger of the quiz finished above *)
Lemma py_score_at_most_questions_witness :
  (is_Some (py_score (PList [record_null; record_c]) {[ 1%Z := PStr (str_of "C") ]})
   ↔ Forall (fun q => is_Some (py_getitem q (str_of "answer")))
       [record_null; record_c])
  ∧ ∀ n, py_score (PList [record_null; record_c]) {[ 1%Z := PStr (str_of "C") ]}
         = Some n →
         (n ≤ length [record_null; record_c])%nat
         ∧ (n = length [record_null; record_c] ↔
            ∀ (i : nat) q, [record_null; record_c] !! i = Some q →
              ∃ a, py_getitem q (str_of "answer") = Some a
                   ∧ py_eq (py_get {[ 1%Z := PStr (str_of "C") ]} (Z.of_nat i) PNone) a
                     = true).
Proof.
  apply (py_score_at_most_questions (PList [record_null; record_c])
           {[ 1%Z := PStr (str_of "C") ]} [record_null; record_c]).
  reflexivity.
Defined.

Lemma verdicts_defaults d d' answers k l bs bs' :
  verdicts d answers (enumerate_from k l) = Some bs →
  verdicts d' answers (enumerate_from k l) = Some bs' →
  (length (List.filter id bs')
   + length (List.filter
       (fun iq => match answers !! fst iq, py_getitem (snd iq) (str_of "answer") with
                  | None, Some a => py_eq d a
                  | _, _ => false
                  end)
       (enumerate_from k l))
   = length (List.filter id bs)
     + length (List.filter
         (fun iq => match answers !! fst iq, py_getitem (snd iq) (str_of "answer") with
                    | None, Some a => py_eq d' a
                    | _, _ => false
                    end)
         (enumerate_from k l)))%nat.
Proof.
  revert k bs bs'. induction l as [|q l IH]; intros k bs bs'.
  - by intros [= <-] [= <-].
  - cbn [enumerate_from verdicts List.filter fst snd].
    destruct (py_getitem q _) as [a|]; [|done].
    destruct (verdicts d answers _) as [cs|] eqn:Hcs; [|done].
    destruct (verdicts d' answers _) as [cs'|] eqn:Hcs'; [|done].
    intros [= <-] [= <-]. specialize (IH _ _ _ Hcs Hcs').
    unfold py_get. destruct (answers !! k) as [x|]; cbn [default List.filter id].
    + destruct (py_eq x a); simpl; lia.
    + destruct (py_eq d a), (py_eq d' a); simpl; lia.
Qed.

Lemma unanswered_equal_none d l answers :
  (∀ q a, q ∈ l → py_getitem q (str_of "answer") = Some a → py_eq d a = false) →
  unanswered_equal d l answers = 0%nat.
Proof.
  unfold unanswered_equal, enumerate. generalize 0%Z.
  induction l as [|q l IH]; intros k Hall; [done|].
  cbn [enumerate_from List.filter fst snd].
  assert (match answers !! k, py_getitem q (str_of "answer") with
          | None, Some a => py_eq d a
          | _, _ => false
          end = false) as ->.
  { destruct (answers !! k); [done|].
    destruct (py_getitem q _) as [a|] eqn:Ha; [|done].
    apply (Hall q a); [by left | done]. }
  apply IH. intros q' a' Hq'. apply Hall. by right.
Qed.

(** X10: The review has a line for every record, and differs from the
    score on the questions without entry in the ledger only: there the
    score counts the records whose answer is [None], the review marks
    the records whose answer is the text [Not Answered].  When no
    record has one of these two answers, review and score agree. *)
Theorem py_review_and_score questions answers l n marks :
  py_iter questions = Some l →
  py_score questions answers = Some n →
  py_review questions answers = Some marks →
  length marks = length l
  ∧ (length (List.filter id marks) + unanswered_equal PNone l answers
     = n + unanswered_equal (PStr not_answered) l answers)%nat
  ∧ ((∀ q, q ∈ l → py_getitem q (str_of "answer") ≠ Some PNone
                   ∧ py_getitem q (str_of "answer") ≠ Some (PStr not_answered)) →
     length (List.filter id marks) = n).
Proof.
  intros Hl. unfold py_score, py_review. rewrite Hl.
  destruct (verdicts PNone answers (enumerate l)) as [bs|] eqn:Hbs; [|done].
  intros [= <-].
  destruct (mapM _ l); [|done]. intros Hm.
  pose proof (verdicts_defaults _ _ _ _ _ _ _ Hbs Hm) as Hsum.
  fold (enumerate l) in Hsum.
  fold (unanswered_equal PNone l answers) in Hsum.
  fold (unanswered_equal (PStr not_answered) l answers) in Hsum.
  split.
  { apply verdicts_length in Hm. unfold enumerate in Hm.
    by rewrite enumerate_from_length in Hm. }
  split; [done|].
  intros Hna.
  rewrite !unanswered_equal_none in Hsum; [lia|..].
  - intros q a Hq Ha. apply not_true_is_false. intros ->%py_eq_str.
    by destruct (Hna q Hq).
  - intros q a Hq Ha. apply not_true_is_false. intros ->%py_eq_none.
    by destruct (Hna q Hq).
Qed.

(** the quiz finished above: the review marks one question, the score
    counts two *)
Lemma py_review_and_score_witness :
  length [false; true] = length [record_null; record_c]
  ∧ (length (List.filter id [false; true])
     + unanswered_equal PNone [record_null; record_c] {[ 1%Z := PStr (str_of "C") ]}
     = 2 + unanswered_equal (PStr not_answered) [record_null; record_c]
             {[ 1%Z := PStr (str_of "C") ]})%nat
  ∧ ((∀ q, q ∈ [record_null; record_c] →
           py_getitem q (str_of "answer") ≠ Some PNone
           ∧ py_getitem q (str_of "answer") ≠ Some (PStr not_answered)) →
     length (List.filter id [false; true]) = 2%nat).
Proof.
  apply (py_review_and_score (PList [record_null; record_c])
           {[ 1%Z := PStr (str_of "C") ]} [record_null; record_c] 2%nat
           [false; true]).
  - reflexivity.
  - vm_compute. reflexivity.
  - vm_compute. reflexivity.
Defined.
End final_score.

(* ===================================================================== *)
(** * The gateway's failures                                              *)
(* ===================================================================== *)

Section gateway_outcomes.
Implicit Types (text key cause : str) (sec : secrets) (svc : service)
  (r : response).

(** On the outcomes of [service] the gateway is
    [parse_quiz_file_with_ai]. *)
Lemma parse_quiz_file_with_ai_outcome_service sec svc :
  parse_quiz_file_with_ai_outcome sec (response_of svc)
  = (Returns (fst (parse_quiz_file_with_ai sec svc)),
     snd (parse_quiz_file_with_ai sec svc)).
Proof.
  unfold parse_quiz_file_with_ai_outcome, parse_quiz_file_with_ai.
  destruct (configure_ai sec) as [[] msgs]; [|done]. cbn [negb].
  destruct svc as [cause|text]; [done|]. cbn [response_of].
  destruct (json_loads (clean_reply text)) as [e|v]; [done|].
  by destruct (py_len v).
Qed.

(** C5 (amended): the gateway has no error value.  When the service
    raises before there is a response, it displays the error and the
    cause and returns the empty list; when the text of the reply does
    not decode, or decodes to a value without length, it displays the
    raw text besides and returns the empty list: the value it returns
    for a reply that is the empty array, where it displays the success.
    A reply that decodes to anything with a length -- an array, but a
    JSON object or a string as well -- is no failure for the gateway:
    the value is returned as the store. *)
Theorem gateway_failure_kinds key :
  key ≠ [] →
  (∀ cause,
     parse_quiz_file_with_ai_outcome (Secrets (Some key)) (NoResponse cause)
     = (Returns (PList []),
        [info_analyzing; error_analyzing; error_details (ServiceError cause)]))
  ∧ (∀ text e,
       json_loads (clean_reply text) = inl e →
       parse_quiz_file_with_ai_outcome (Secrets (Some key)) (ResponseText text)
       = (Returns (PList []),
          [info_analyzing; error_analyzing; error_details e; code_raw text]))
  ∧ (∀ text v,
       json_loads (clean_reply text) = inr v → py_len v = None →
       parse_quiz_file_with_ai_outcome (Secrets (Some key)) (ResponseText text)
       = (Returns (PList []),
          [info_analyzing; error_analyzing; error_details TypeError;
           code_raw text]))
  ∧ (∀ text v n,
       json_loads (clean_reply text) = inr v → py_len v = Some n →
       parse_quiz_file_with_ai_outcome (Secrets (Some key)) (ResponseText text)
       = (Returns v, [info_analyzing; success_found n]))
  ∧ parse_quiz_file_with_ai_outcome (Secrets (Some key))
      (ResponseText (str_of "[]"))
    = (Returns (PList []), [info_analyzing; success_found 0]).
Proof.
  intros Hkey. destruct key as [|k key]; [done|].
  unfold parse_quiz_file_with_ai_outcome. cbn [configure_ai negb].
  split; [done|].
  split; [by intros text e ->|].
  split; [by intros text v -> ->|].
  split; [by intros text v n -> ->|].
  done.
Qed.

Lemma gateway_failure_kinds_witness :
  (∀ cause,
     parse_quiz_file_with_ai_outcome (Secrets (Some sample_key)) (NoResponse cause)
     = (Returns (PList []),
        [info_analyzing; error_analyzing; error_details (ServiceError cause)]))
  ∧ (∀ text e,
       json_loads (clean_reply text) = inl e →
       parse_quiz_file_with_ai_outcome (Secrets (Some sample_key)) (ResponseText text)
       = (Returns (PList []),
          [info_analyzing; error_analyzing; error_details e; code_raw text]))
  ∧ (∀ text v,
       json_loads (clean_reply text) = inr v → py_len v = None →
       parse_quiz_file_with_ai_outcome (Secrets (Some sample_key)) (ResponseText text)
       = (Returns (PList []),
          [info_analyzing; error_analyzing; error_details TypeError;
           code_raw text]))
  ∧ (∀ text v n,
       json_loads (clean_reply text) = inr v → py_len v = Some n →
       parse_quiz_file_with_ai_outcome (Secrets (Some sample_key)) (ResponseText text)
       = (Returns v, [info_analyzing; success_found n]))
  ∧ parse_quiz_file_with_ai_outcome (Secrets (Some sample_key))
      (ResponseText (str_of "[]"))
    = (Returns (PList []), [info_analyzing; success_found 0]).
Proof.
  apply (gateway_failure_kinds sample_key). discriminate.
Defined.

(** a reply that is a JSON object, not an array: it is the store *)
Example gateway_object_is_store :
  parse_quiz_file_with_ai_outcome (Secrets (Some sample_key))
    (ResponseText (json_of "{'error':'no questions found'}"))
  = (Returns (PDict [(str_of "error", PStr (str_of "no questions found"))]),
     [info_analyzing; success_found 1]).
Proof. by vm_compute. Qed.

(** a response without text: the errors are displayed, and the
    exception leaves the function and [main] *)
Example gateway_response_without_text :
  parse_quiz_file_with_ai_outcome (Secrets (Some sample_key))
    (ResponseWithoutText (str_of "blocked"))
  = (Raises (ServiceError (str_of "blocked")),
     [info_analyzing; error_analyzing;
      error_details (ServiceError (str_of "blocked"))])
  ∧ py_main (PyUpload (Secrets (Some sample_key))
               (ResponseWithoutText (str_of "blocked"))) py_new_session
    = None.
Proof. by vm_compute. Qed.

(** X2: The gateway raises for a response without text only, the key
    being usable, after it has displayed the error and the cause.
    Otherwise it returns a value that has a length (a list, a dict or a
    str, never a number, a boolean or [None]); a value that is not empty
    comes with the announcement of the analysis and the success message
    showing that length, and whenever the error is displayed the value
    is the empty list. *)
Theorem gateway_outcome_shape sec r :
  match parse_quiz_file_with_ai_outcome sec r with
  | (Raises e, msgs) =>
      fst (configure_ai sec) = true
      ∧ ∃ cause, r = ResponseWithoutText cause
                 ∧ e = ServiceError cause
                 ∧ msgs = [info_analyzing; error_analyzing; error_details e]
  | (Returns v, msgs) =>
      (fst (configure_ai sec) = true → ∀ cause, r ≠ ResponseWithoutText cause)
      ∧ ∃ n, py_len v = Some n
             ∧ (n ≠ 0%nat → msgs = [info_analyzing; success_found n])
             ∧ (In error_analyzing msgs → v = PList [])
             ∧ ∀ k, In (success_found k) msgs → k = n
  end.
Proof.
  unfold parse_quiz_file_with_ai_outcome.
  destruct sec as [c|[[|k0 key]|]]; cbn [configure_ai negb fst];
    try (split; [done|]; exists 0%nat; split; [done|]; split; [done|];
         split; [done|]; intros k; simpl; intuition discriminate).
  destruct r as [cause|text|cause].
  - split; [done|]. exists 0%nat. split; [done|]. split; [done|].
    split; [done|]. intros k; simpl; intuition discriminate.
  - destruct (json_loads (clean_reply text)) as [e|v].
    { split; [done|]. exists 0%nat. split; [done|]. split; [done|].
      split; [done|]. intros k; simpl; intuition discriminate. }
    destruct (py_len v) as [n|] eqn:Hn.
    + split; [done|]. exists n. split; [done|]. split; [done|].
      split; [simpl; intuition discriminate|].
      intros k; simpl; intuition congruence.
    + split; [done|]. exists 0%nat. split; [done|]. split; [done|].
      split; [done|]. intros k; simpl; intuition discriminate.
  - split; [done|]. by exists cause.
Qed.
End gateway_outcomes.

(* ===================================================================== *)
(** * The cleaning of the reply                                           *)
(* ===================================================================== *)

Section deletion.
Implicit Types (s t a b old new : str) (c : N).

Lemma startswith_short old s :
  (length s < length old)%nat → startswith old s = false.
Proof.
  intros Hlt. apply not_true_is_false. intros H%startswith_length. lia.
Qed.

Lemma contains_short old s :
  (length s < length old)%nat → contains old s = false.
Proof.
  induction s as [|c s IH]; intros Hlt.
  - simpl. rewrite orb_false_r. by apply startswith_short.
  - cbn [contains]. rewrite startswith_short by done.
    apply IH. simpl in Hlt. lia.
Qed.

(** Whether [old] begins a text is decided by its first [length old]
    characters. *)
Lemma startswith_app_long old s t :
  (length old ≤ length s)%nat → startswith old (s ++ t) = startswith old s.
Proof.
  revert s. induction old as [|o old IH]; intros s Hlen; [done|].
  destruct s as [|c s]; simpl in *; [lia|].
  rewrite IH; [done | lia].
Qed.

Lemma removelast_snoc old :
  old ≠ [] → ∃ c, old = removelast old ++ [c].
Proof.
  intros Hold. exists (List.last old 0). by apply app_removelast_last.
Qed.

Lemma length_removelast old :
  old ≠ [] → length old = S (length (removelast old)).
Proof.
  intros [c Hc]%removelast_snoc. rewrite Hc at 1. rewrite length_app. simpl. lia.
Qed.

Lemma contains_cons old c s :
  contains old (c :: s) = startswith old (c :: s) || contains old s.
Proof. done. Qed.

(** No occurrence: nothing is replaced. *)
Lemma replace_not_contained old new s :
  old ≠ [] → contains old s = false → replace old new s = s.
Proof.
  intros Hold. induction s as [|c s IH]; [done|].
  rewrite contains_cons. intros [H1 H2]%orb_false_elim.
  rewrite replace_no_match by done. by rewrite IH.
Qed.

(** The first occurrence: what precedes it is kept, and the replacement
    goes on behind it. *)
Lemma replace_first old new a b :
  old ≠ [] → contains old (a ++ removelast old) = false →
  replace old new (a ++ old ++ b) = a ++ new ++ replace old new b.
Proof.
  intros Hold. induction a as [|c a IH]; intros Hc.
  - simpl. by apply replace_match.
  - change ((c :: a) ++ removelast old) with (c :: (a ++ removelast old)) in Hc.
    rewrite contains_cons in Hc. apply orb_false_elim in Hc as [H1 H2].
    change ((c :: a) ++ old ++ b) with (c :: (a ++ old ++ b)).
    rewrite replace_no_match; [simpl; by rewrite IH | done |].
    destruct (removelast_snoc old Hold) as [x Hx].
    rewrite Hx at 2. rewrite <- !app_assoc, app_assoc.
    change (c :: (a ++ removelast old) ++ [x] ++ b)
      with ((c :: a ++ removelast old) ++ [x] ++ b).
    rewrite startswith_app_long; [done|].
    rewrite (length_removelast old Hold). simpl. rewrite length_app. lia.
Qed.

(** A text in which [old] occurs splits at the first occurrence. *)
Lemma contains_first old s :
  old ≠ [] → contains old s = true →
  ∃ a b, s = a ++ old ++ b ∧ contains old (a ++ removelast old) = false.
Proof.
  intros Hold. induction s as [|c s IH].
  - simpl. rewrite orb_false_r. intros H%startswith_length.
    destruct old; [done | simpl in H; lia].
  - rewrite contains_cons. destruct (startswith old (c :: s)) eqn:Hsw.
    + intros _. apply startswith_prefix in Hsw as [b Hb].
      exists [], b. split; [done|]. simpl. apply contains_short.
      rewrite (length_removelast old Hold). lia.
    + simpl. intros (a & b & -> & Ha)%IH.
      exists (c :: a), b. split; [done|].
      change ((c :: a) ++ removelast old) with (c :: (a ++ removelast old)).
      rewrite contains_cons, Ha, orb_false_r.
      destruct (removelast_snoc old Hold) as [x Hx].
      rewrite Hx in Hsw at 2. rewrite <- !app_assoc, app_assoc in Hsw.
      change (c :: (a ++ removelast old) ++ [x] ++ b)
        with ((c :: a ++ removelast old) ++ [x] ++ b) in Hsw.
      rewrite startswith_app_long in Hsw; [done|].
      rewrite (length_removelast old Hold). simpl. rewrite length_app. lia.
Qed.

(** [replace old []] deletes, and what deletes is [replace old []]. *)
Lemma replace_deletes old s :
  old ≠ [] → deletes old s (replace old [] s).
Proof.
  intros Hold.
  remember (length s) as n eqn:Hn. revert s Hn.
  induction n as [n IH] using lt_wf_ind. intros s Hn.
  destruct (contains old s) eqn:Hc.
  - destruct (contains_first old s Hold Hc) as (a & b & -> & Ha).
    rewrite replace_first by done. simpl app.
    apply deletes_first; [done|].
    apply (IH (length b)); [|done].
    subst n. rewrite !length_app. destruct old; [done | simpl; lia].
  - rewrite replace_not_contained by done. by apply deletes_none.
Qed.

Lemma deletes_replace old s r :
  old ≠ [] → deletes old s r → r = replace old [] s.
Proof.
  intros Hold. induction 1 as [s Hc | a b r Ha _ IH].
  - by rewrite replace_not_contained.
  - rewrite replace_first by done. simpl. by rewrite IH.
Qed.

Lemma deletes_iff old s r :
  old ≠ [] → deletes old s r ↔ r = replace old [] s.
Proof.
  intros Hold. split; [by apply deletes_replace|].
  intros ->. by apply replace_deletes.
Qed.

Lemma rstrip_app s w :
  rstrip (s ++ w) = match rstrip w with
                    | [] => rstrip s
                    | _ :: _ => s ++ rstrip w
                    end.
Proof.
  unfold rstrip. rewrite rev_app_distr, lstrip_app.
  destruct (lstrip (rev w)) as [|c r] eqn:Hw; [done|].
  rewrite rev_app_distr, rev_involutive.
  destruct (rev (c :: r)) eqn:Hr; [|done].
  apply (f_equal (@length N)) in Hr. rewrite length_rev in Hr. done.
Qed.

(** Text with something other than whitespace on both sides of [x]:
    [strip] does not reach [x]. *)
Lemma strip_around a x b :
  lstrip a ≠ [] → rstrip b ≠ [] →
  strip (a ++ x ++ b) = lstrip a ++ x ++ rstrip b.
Proof.
  intros Ha Hb. unfold strip. rewrite lstrip_app.
  destruct (lstrip a) as [|c r] eqn:Hl; [done|].
  rewrite app_assoc, rstrip_app.
  destruct (rstrip b) as [|d t] eqn:Hr; [done|].
  by rewrite <- app_assoc.
Qed.

Lemma lstrip_not_in c s : c ∉ s → c ∉ lstrip s.
Proof.
  intros H Hin. apply H. destruct (lstrip_suffix s) as [w Hw].
  rewrite Hw. apply elem_of_app. by right.
Qed.

Lemma rstrip_not_in c s : c ∉ s → c ∉ rstrip s.
Proof.
  intros H Hin. apply list_elem_of_In in Hin. unfold rstrip in Hin.
  apply in_rev, list_elem_of_In in Hin. revert Hin. apply lstrip_not_in.
  intros Hin. apply H. by apply list_elem_of_In, in_rev, list_elem_of_In.
Qed.

(** A prefix without the first character of [old] is passed over. *)
Lemma replace_skip old new a s o old' :
  old = o :: old' → o ∉ a → replace old new (a ++ s) = a ++ replace old new s.
Proof.
  intros -> Ho. induction a as [|c a IH]; [done|].
  apply not_elem_of_cons in Ho as [Hne Ho].
  change ((c :: a) ++ s) with (c :: (a ++ s)).
  rewrite replace_no_match; [simpl; by rewrite IH | done |].
  simpl. apply N.eqb_neq in Hne. by rewrite Hne.
Qed.

Lemma startswith_backtick_no p b :
  96 ∉ b → startswith (96 :: p) b = false.
Proof.
  destruct b as [|c b]; [done|]. intros [Hne _]%not_elem_of_cons.
  cbn [startswith]. apply N.eqb_neq in Hne. by rewrite Hne.
Qed.

(** A fence between two texts without backtick is the one occurrence the
    replacements find: both sides are kept as they are. *)
Lemma unfence_one (lang : bool) a b :
  96 ∉ a → 96 ∉ b →
  (lang = false → startswith (str_of "json") b = false) →
  unfence (a ++ (if lang then fence_json else fence) ++ b) = a ++ b.
Proof.
  intros Ha Hb Hj. unfold unfence.
  assert (replace fence_json [] b = b) as Hb1
    by by apply (replace_absent fence_json [] b 96 (str_of "``json")).
  assert (replace fence [] b = b) as Hb2
    by by apply (replace_absent fence [] b 96 [96; 96]).
  rewrite (replace_skip fence_json [] a _ 96 (str_of "``json")) by done.
  destruct lang.
  - rewrite replace_match, Hb1 by done. simpl app.
    apply (replace_absent fence [] (a ++ b) 96 [96; 96]); [done|].
    rewrite elem_of_app. tauto.
  - assert (replace fence_json [] (fence ++ b) = fence ++ b) as ->.
    { change (fence ++ b) with (96 :: 96 :: 96 :: b).
      rewrite replace_no_match; [|done|by apply Hj].
      rewrite replace_no_match; [|done|].
      2:{ change (startswith fence_json (96 :: 96 :: b))
            with ((96 =? 96) && ((96 =? 96) && startswith (96 :: str_of "json") b)).
          by rewrite startswith_backtick_no. }
      rewrite replace_no_match; [|done|].
      2:{ change (startswith fence_json (96 :: b))
            with ((96 =? 96) && startswith (96 :: 96 :: str_of "json") b).
          by rewrite startswith_backtick_no. }
      by rewrite Hb1. }
    rewrite (replace_skip fence [] a _ 96 [96; 96]) by done.
    by rewrite replace_match, Hb2.
Qed.

Lemma with_fences_app p q :
  with_fences (p ++ q) = with_fences p ++ with_fences q.
Proof.
  induction p as [|[lang b] p IH]; [done|].
  simpl. by rewrite IH, <- !app_assoc.
Qed.

Lemma without_fences_app p q :
  without_fences (p ++ q) = without_fences p ++ without_fences q.
Proof. unfold without_fences. by rewrite map_app, concat_app. Qed.

Lemma with_fences_head p :
  with_fences p = [] ∨ ∃ x, with_fences p = 96 :: 96 :: 96 :: x.
Proof.
  destruct p as [|[[] b] p]; [by left|right..]; simpl; eauto.
Qed.

(** After a fence without tag, no [```json] begins before the piece. *)
Lemma replace_fence_json_plain b p :
  96 ∉ b → startswith (str_of "json") b = false →
  replace fence_json [] (fence ++ b ++ with_fences p)
  = fence ++ b ++ replace fence_json [] (with_fences p).
Proof.
  intros Hb Hj.
  assert (startswith (str_of "json") (b ++ with_fences p) = false) as H1.
  { destruct (with_fences_head p) as [->|[x ->]]; [by rewrite app_nil_r|].
    rewrite startswith_sep; [done|].
    intros H. apply list_elem_of_In in H. vm_compute in H. intuition discriminate. }
  assert (∀ q, startswith (96 :: q ++ str_of "json") (b ++ with_fences p) = false
               ∨ b = []) as H2.
  { intros q. destruct b as [|c b]; [by right|left].
    apply not_elem_of_cons in Hb as [Hne _].
    change ((c :: b) ++ with_fences p) with (c :: (b ++ with_fences p)).
    cbn [startswith]. apply N.eqb_neq in Hne. by rewrite Hne. }
  change (fence ++ b ++ with_fences p) with (96 :: 96 :: 96 :: b ++ with_fences p).
  rewrite replace_no_match; [|done|exact H1].
  rewrite replace_no_match; [|done|].
  2:{ change (startswith fence_json (96 :: 96 :: b ++ with_fences p))
        with ((96 =? 96) && ((96 =? 96)
              && startswith (96 :: [] ++ str_of "json") (b ++ with_fences p))).
      destruct (H2 []) as [->| ->]; [done|].
      destruct (with_fences_head p) as [->|[x ->]]; done. }
  rewrite replace_no_match; [|done|].
  2:{ change (startswith fence_json (96 :: b ++ with_fences p))
        with ((96 =? 96)
              && startswith (96 :: [96] ++ str_of "json") (b ++ with_fences p)).
      destruct (H2 [96]) as [->| ->]; [done|].
      destruct (with_fences_head p) as [->|[x ->]]; done. }
  by rewrite (replace_skip fence_json [] b _ 96 (str_of "``json")).
Qed.

(** The first replacement deletes the fences with tag, the second the
    fences without: the pieces remain. *)
Lemma unfence_with_fences a p :
  96 ∉ a → Forall piece_ok p →
  unfence (a ++ with_fences p) = a ++ without_fences p.
Proof.
  intros Ha Hp. unfold unfence.
  rewrite (replace_skip fence_json [] a _ 96 (str_of "``json")) by done.
  set (plain := fix plain (p : list (bool * str)) : str :=
         match p with
         | [] => []
         | (lang, b) :: rest => (if lang then [] else fence) ++ b ++ plain rest
         end).
  assert (replace fence_json [] (with_fences p) = plain p) as ->.
  { induction Hp as [|[lang b] p [Hb Hj] _ IH]; [done|]. cbn [fst snd] in Hb, Hj.
    cbn [with_fences plain]. destruct lang.
    - rewrite replace_match by done. simpl app.
      by rewrite (replace_skip fence_json [] b _ 96 (str_of "``json")), IH.
    - rewrite replace_fence_json_plain by auto. by rewrite IH. }
  rewrite (replace_skip fence [] a _ 96 [96; 96]) by done. f_equal.
  induction Hp as [|[lang b] p [Hb _] _ IH]; [done|]. cbn [fst snd] in Hb.
  cbn [plain]. unfold without_fences. cbn [List.map concat snd].
  destruct lang.
  - simpl app. by rewrite (replace_skip fence [] b _ 96 [96; 96]), IH.
  - rewrite replace_match by done. simpl app.
    by rewrite (replace_skip fence [] b _ 96 [96; 96]), IH.
Qed.

Lemma rstrip_prefix s : ∃ w, s = rstrip s ++ w.
Proof.
  unfold rstrip. destruct (lstrip_suffix (rev s)) as [w Hw].
  exists (rev w). rewrite <- rev_app_distr, <- Hw. by rewrite rev_involutive.
Qed.

Lemma piece_ok_rstrip (lang : bool) b : piece_ok (lang, b) → piece_ok (lang, rstrip b).
Proof.
  intros [Hb Hj]. cbn [fst snd] in *. split; cbn [fst snd].
  - by apply rstrip_not_in.
  - intros Hl. apply not_true_is_false. intros [r Hr]%startswith_prefix.
    destruct (rstrip_prefix b) as [w Hw].
    specialize (Hj Hl). rewrite Hw, Hr, <- app_assoc in Hj.
    by rewrite startswith_app in Hj.
Qed.

(** Fences inside a payload -- text other than whitespace before the
    first and after the last -- are deleted, and the decoder is given the
    payload without them. *)
Lemma clean_reply_with_fences a p (lang : bool) b :
  96 ∉ a → Forall piece_ok (p ++ [(lang, b)]) →
  lstrip a ≠ [] → rstrip b ≠ [] →
  clean_reply (a ++ with_fences (p ++ [(lang, b)]))
  = strip (a ++ without_fences (p ++ [(lang, b)])).
Proof.
  intros Ha Hp Hl Hr.
  apply Forall_app in Hp as [Hp Hb]. rewrite Forall_singleton in Hb.
  rewrite with_fences_app, without_fences_app.
  unfold without_fences at 2. cbn [with_fences List.map concat snd].
  rewrite !app_nil_r.
  unfold clean_reply. fold (unfence (strip (a ++ with_fences p
     ++ (if lang then fence_json else fence) ++ b))).
  rewrite (app_assoc (with_fences p)).
  rewrite (strip_around a _ b), (strip_around a _ b) by done.
  replace ((with_fences p ++ (if lang then fence_json else fence)) ++ rstrip b)
    with (with_fences (p ++ [(lang, rstrip b)])).
  2:{ rewrite with_fences_app. simpl. by rewrite app_nil_r, <- app_assoc. }
  rewrite unfence_with_fences.
  - by rewrite without_fences_app; unfold without_fences at 2; simpl;
      rewrite app_nil_r.
  - by apply lstrip_not_in.
  - apply Forall_app. split; [done|]. apply Forall_singleton.
    by apply piece_ok_rstrip.
Qed.

Lemma without_fences_no_backtick p :
  Forall piece_ok p → 96 ∉ without_fences p.
Proof.
  induction 1 as [|[lang b] p [Hb _] _ IH]; [apply not_elem_of_nil|].
  unfold without_fences. cbn [List.map concat snd] in *. rewrite elem_of_app.
  tauto.
Qed.
End deletion.

Section cleaning_claim.
Implicit Types (s t text key a b : str).

Lemma clean_reply_no_backtick text : 96 ∉ text → clean_reply text = strip text.
Proof.
  intros H. unfold clean_reply.
  assert (96 ∉ strip text) as H'.
  { intros Hin. apply H. eapply elem_of_sublist; [exact Hin | apply strip_sublist]. }
  rewrite (replace_absent fence_json [] (strip text) 96 (str_of "``json")) by done.
  by rewrite (replace_absent fence [] (strip text) 96 [96; 96]).
Qed.

(** C10: the text handed to the decoder is the stripped reply with the
    occurrences of [```json] deleted and then the occurrences of [```],
    wherever they stand, everything else kept in order: no [```] is left
    in it, and a value it decodes to is the store.  So for a payload cut
    by fences at any places -- inside the strings of a record as well --
    the store is the one of the payload without them. *)
Theorem clean_reply_deletes_every_fence text :
  (∀ r, r = clean_reply text
        ↔ ∃ m, deletes fence_json (strip text) m ∧ deletes fence m r)
  ∧ contains fence (clean_reply text) = false
  ∧ contains fence_json (clean_reply text) = false
  ∧ sublist (clean_reply text) text
  ∧ (∀ key v n,
       key ≠ [] → json_loads (clean_reply text) = inr v → py_len v = Some n →
       parse_quiz_file_with_ai (Secrets (Some key)) (Reply text)
       = (v, [info_analyzing; success_found n]))
  ∧ (∀ a p (lang : bool) b,
       text = a ++ with_fences (p ++ [(lang, b)]) →
       96 ∉ a → Forall piece_ok (p ++ [(lang, b)]) →
       lstrip a ≠ [] → rstrip b ≠ [] →
       clean_reply text = strip (a ++ without_fences (p ++ [(lang, b)]))
       ∧ ∀ sec,
           fst (parse_quiz_file_with_ai sec (Reply text))
           = fst (parse_quiz_file_with_ai sec
                    (Reply (a ++ without_fences (p ++ [(lang, b)]))))).
Proof.
  split.
  { intros r. unfold clean_reply. split.
    - intros ->. exists (replace fence_json [] (strip text)).
      split; by apply replace_deletes.
    - intros (m & Hm & Hr).
      apply deletes_replace in Hm; [|done]. apply deletes_replace in Hr; [|done].
      by subst. }
  split; [apply clean_reply_no_fence|].
  split.
  { apply not_true_is_false. intros H.
    apply (contains_mono _ fence) in H; [|apply startswith_fence_json].
    by rewrite clean_reply_no_fence in H. }
  split; [apply clean_reply_sublist|].
  split.
  { intros key v n Hkey Hv Hn. unfold parse_quiz_file_with_ai.
    destruct key as [|k key]; [done|]. cbn [configure_ai negb].
    by rewrite Hv, Hn. }
  intros a p lang b -> Ha Hp Hl Hr.
  pose proof (clean_reply_with_fences a p lang b Ha Hp Hl Hr) as Hc.
  split; [done|].
  assert (clean_reply (a ++ with_fences (p ++ [(lang, b)]))
          = clean_reply (a ++ without_fences (p ++ [(lang, b)]))) as Heq.
  { rewrite Hc. symmetry. apply clean_reply_no_backtick.
    rewrite elem_of_app. pose proof (without_fences_no_backtick _ Hp). tauto. }
  intros sec. unfold parse_quiz_file_with_ai.
  destruct (configure_ai sec) as [[] msgs]; [|done]. cbn [negb]. rewrite Heq.
  destruct (json_loads (clean_reply _)) as [e|v]; [done|].
  by destruct (py_len v).
Qed.

(** A question that holds two fences: the store has it without them. *)
Lemma clean_reply_deletes_every_fence_witness :
  clean_reply reply_backticks
  = json_of "[{'question':'What prints x?','options':['x','y'],'answer':'x'}]"
  ∧ parse_quiz_file_with_ai (Secrets (Some sample_key)) (Reply reply_backticks)
    = (PList [ PDict [ (str_of "question", PStr (str_of "What prints x?"));
                       (str_of "options", PList [PStr (str_of "x"); PStr (str_of "y")]);
                       (str_of "answer", PStr (str_of "x")) ] ],
       [info_analyzing; success_found 1]).
Proof.
  destruct (clean_reply_deletes_every_fence reply_backticks)
    as (_ & _ & _ & _ & Hstore & Hfences).
  split.
  - destruct (Hfences (json_of "[{'question':'What prints ")
                [(false, str_of "x")] false
                (json_of "?','options':['x','y'],'answer':'x'}]")) as [Hc _].
    + reflexivity.
    + intros H. apply list_elem_of_In in H. vm_compute in H. intuition discriminate.
    + repeat constructor; cbn [fst snd];
        intros H; apply list_elem_of_In in H; vm_compute in H;
        intuition discriminate.
    + vm_compute. discriminate.
    + vm_compute. discriminate.
    + rewrite Hc. vm_compute. reflexivity.
  - apply Hstore.
    + discriminate.
    + vm_compute. reflexivity.
    + reflexivity.
Defined.
End cleaning_claim.
